(** * csvparser: a shallow embedding of [src/csvparser.c]

    The development follows the C file from top to bottom: the byte
    helpers, [s_line_is_skippable], the field tokenizer
    [s_parse_line_to_row], the line reader
    [s_read_next_non_skippable_line] and the five public operations.

    Conventions.
    - A byte ([char], [unsigned char]) is an [ascii]; a C string is the
      [list ascii] of the bytes that precede its terminator.  Every
      function that scans a C string stops at the end of the list and at
      a NUL byte, whichever comes first, exactly as [while ( *p )] does.
    - A pointer that may be [NULL] is an [option].
    - [malloc], [realloc] and [strdup] are taken to succeed, as the note
      on [s_parse_line_to_row] in the source does ("never returns NULL
      under normal allocation semantics").
    - The two arrays of the tokenizer, [buf] and [fields], are the lists
      of their used slots together with their capacities; a store at an
      index that is not below the capacity is undefined behaviour.
    - [size_t] counters that are bounded by the length of a string held
      in memory ([buf_len], [fields_cnt], the capacities) are [nat];
      [line_no], which counts lines of a file of any size, is an [N]
      with the wrap-around of a [size_bits]-bit [size_t] written out. *)

From Stdlib Require Import Ascii String List Bool Arith NArith Lia.
Import ListNotations.
Local Open Scope list_scope.

Set Implicit Arguments.

(** ** Outcomes

    [Undefined] is undefined behaviour of the C program (here: a store
    outside an array, or a null stream handed to [getline]); [OutOfFuel]
    only exists in the model, for the loops that are run with a step
    budget. *)

Inductive outcome (A : Type) : Type :=
| Ok (a : A)
| Undefined
| OutOfFuel.

Arguments Ok {A} a.
Arguments Undefined {A}.
Arguments OutOfFuel {A}.

Definition bind {A B : Type} (m : outcome A) (k : A -> outcome B) : outcome B :=
  match m with
  | Ok a => k a
  | Undefined => Undefined
  | OutOfFuel => OutOfFuel
  end.

Notation "x <- m ;; k" := (bind m (fun x => k))
  (at level 61, m at next level, right associativity).
Notation "' pat <- m ;; k" := (bind m (fun x => match x with pat => k end))
  (at level 61, pat pattern, m at next level, right associativity).

(** ** Bytes *)

Definition NUL : ascii := "000"%char.
Definition HT : ascii := "009"%char.
Definition LF : ascii := "010"%char.
Definition VT : ascii := "011"%char.
Definition FF : ascii := "012"%char.
Definition CR : ascii := "013"%char.
Definition SPACE : ascii := "032"%char.
Definition QUOTE : ascii := "034"%char.
Definition HASH : ascii := "035"%char.
Definition COMMA : ascii := "044"%char.

(** [isspace] of <ctype.h> in the "C" locale. *)
Definition isspace (c : ascii) : bool :=
  Ascii.eqb c SPACE || Ascii.eqb c HT || Ascii.eqb c LF
  || Ascii.eqb c VT || Ascii.eqb c FF || Ascii.eqb c CR.

(** [*s] for a C string [s]: the terminator when no byte is left. *)
Definition deref (s : list ascii) : ascii := hd NUL s.

(** The delimiters the parser lets through (section 3 of the
    specification): any byte but LF, CR, the double quote and NUL. *)
Definition valid_delim (d : ascii) : Prop :=
  d <> LF /\ d <> CR /\ d <> QUOTE /\ d <> NUL.

(** ** [s_line_is_skippable] *)

Fixpoint s_line_is_skippable (s : list ascii) : bool :=
  match s with
  | [] => true
  | c :: s' =>
      if Ascii.eqb c NUL then true
      else if isspace c then s_line_is_skippable s'
      else Ascii.eqb c HASH
  end.

(** ** The field tokenizer [s_parse_line_to_row] *)

Record csv_row_td : Type := mk_row {
  fields : list (list ascii);
  num_fields : nat
}.

Inductive scan_state : Type :=
| ST_FIELD
| ST_QUOTED_FIELD
| ST_QUOTE_IN_QUOTED.

(** The local variables of [s_parse_line_to_row].  [sc_fields] holds
    [fields[0 .. fields_cnt)], so [fields_cnt] is its length; [sc_buf]
    holds [buf[0 .. buf_len)]; [sc_p] is what is left of the line at the
    cursor [p]. *)
Record scan : Type := mk_scan {
  sc_state : scan_state;
  sc_fields : list (list ascii);
  sc_fields_cap : nat;
  sc_buf : list ascii;
  sc_buf_cap : nat;
  sc_p : list ascii
}.

Definition scan_init (line : list ascii) : scan :=
  {| sc_state := ST_FIELD;
     sc_fields := []; sc_fields_cap := 8;
     sc_buf := []; sc_buf_cap := 128;
     sc_p := line |}.

(** An array of [cap] slots written at index [idx]: in C the store is
    defined only inside the array. *)
Definition in_bounds (idx cap : nat) : bool := idx <? cap.

Definition store {A : Type} (idx cap : nat) (a : A) : outcome A :=
  if in_bounds idx cap then Ok a else Undefined.

(** [buf[buf_len] = '\0'; fields[fields_cnt++] = strdup(buf); buf_len = 0;]
    No byte stored in [buf] is NUL (the loop guard has excluded it), so
    the copy is the whole of [buf]. *)
Definition push_field (s : scan) : outcome scan :=
  _ <- store (length (sc_buf s)) (sc_buf_cap s) tt ;;
  store (length (sc_fields s)) (sc_fields_cap s)
    {| sc_state := sc_state s;
       sc_fields := sc_fields s ++ [sc_buf s];
       sc_fields_cap := sc_fields_cap s;
       sc_buf := []; sc_buf_cap := sc_buf_cap s;
       sc_p := sc_p s |}.

(** [if (fields_cnt == fields_cap) { fields_cap *= 2; realloc }] *)
Definition grow_fields (s : scan) : scan :=
  {| sc_state := sc_state s;
     sc_fields := sc_fields s;
     sc_fields_cap :=
       if length (sc_fields s) =? sc_fields_cap s
       then sc_fields_cap s * 2 else sc_fields_cap s;
     sc_buf := sc_buf s; sc_buf_cap := sc_buf_cap s;
     sc_p := sc_p s |}.

(** [if (buf_len + 1 >= buf_cap) { buf_cap *= 2; realloc }] *)
Definition grow_buf (s : scan) : scan :=
  {| sc_state := sc_state s;
     sc_fields := sc_fields s; sc_fields_cap := sc_fields_cap s;
     sc_buf := sc_buf s;
     sc_buf_cap :=
       if sc_buf_cap s <=? length (sc_buf s) + 1
       then sc_buf_cap s * 2 else sc_buf_cap s;
     sc_p := sc_p s |}.

(** [buf[buf_len++] = c;] *)
Definition put_byte (c : ascii) (s : scan) : outcome scan :=
  store (length (sc_buf s)) (sc_buf_cap s)
    {| sc_state := sc_state s;
       sc_fields := sc_fields s; sc_fields_cap := sc_fields_cap s;
       sc_buf := sc_buf s ++ [c]; sc_buf_cap := sc_buf_cap s;
       sc_p := sc_p s |}.

Definition append_byte (c : ascii) (s : scan) : outcome scan :=
  put_byte c (grow_buf s).

Definition set_state (st : scan_state) (s : scan) : scan :=
  {| sc_state := st;
     sc_fields := sc_fields s; sc_fields_cap := sc_fields_cap s;
     sc_buf := sc_buf s; sc_buf_cap := sc_buf_cap s;
     sc_p := sc_p s |}.

(** [p++] *)
Definition advance (s : scan) : scan :=
  {| sc_state := sc_state s;
     sc_fields := sc_fields s; sc_fields_cap := sc_fields_cap s;
     sc_buf := sc_buf s; sc_buf_cap := sc_buf_cap s;
     sc_p := tl (sc_p s) |}.

(** How one pass through the [while] loop ends: [Again] goes back to the
    loop test (after [p++], or directly for [continue]); [Break] leaves
    the loop, by [break] or because the test [*p] failed. *)
Inductive flow : Type :=
| Again (s : scan)
| Break (s : scan).

(** The body of the loop for the byte [c = *p], [c] not NUL. *)
Definition scan_body (delim c : ascii) (s : scan) : outcome flow :=
  match sc_state s with
  | ST_FIELD =>
      if Ascii.eqb c delim then
        s1 <- push_field s ;;
        Ok (Again (advance (grow_fields s1)))
      else if Ascii.eqb c QUOTE then
        if length (sc_buf s) =? 0 then
          Ok (Again (advance (set_state ST_QUOTED_FIELD s)))
        else
          s1 <- append_byte c s ;;
          Ok (Again (advance s1))
      else if Ascii.eqb c CR || Ascii.eqb c LF then
        Ok (Break s)
      else
        s1 <- append_byte c s ;;
        Ok (Again (advance s1))
  | ST_QUOTED_FIELD =>
      if Ascii.eqb c QUOTE then
        Ok (Again (advance (set_state ST_QUOTE_IN_QUOTED s)))
      else
        s1 <- append_byte c s ;;
        Ok (Again (advance s1))
  | ST_QUOTE_IN_QUOTED =>
      if Ascii.eqb c QUOTE then
        s1 <- append_byte QUOTE s ;;
        Ok (Again (advance (set_state ST_QUOTED_FIELD s1)))
      else if Ascii.eqb c delim then
        s1 <- push_field s ;;
        Ok (Again (advance (set_state ST_FIELD (grow_fields s1))))
      else if Ascii.eqb c CR || Ascii.eqb c LF || Ascii.eqb c NUL then
        s1 <- push_field s ;;
        Ok (Break (set_state ST_FIELD s1))
      else
        (* continue: the cursor stays on [c] *)
        s1 <- push_field s ;;
        Ok (Again (set_state ST_FIELD (grow_fields s1)))
  end.

(** The loop test followed by the body. *)
Definition scan_step (delim : ascii) (s : scan) : outcome flow :=
  match sc_p s with
  | [] => Ok (Break s)
  | c :: _ => if Ascii.eqb c NUL then Ok (Break s) else scan_body delim c s
  end.

Fixpoint scan_loop (fuel : nat) (delim : ascii) (s : scan) : outcome scan :=
  match fuel with
  | O => OutOfFuel
  | S fuel' =>
      f <- scan_step delim s ;;
      match f with
      | Break s' => Ok s'
      | Again s' => scan_loop fuel' delim s'
      end
  end.

(** After the loop: the last field is pushed (both arms of the source's
    [if (state != ST_QUOTED_FIELD)] do the same), and the row is built
    from [fields] and [fields_cnt].  The [realloc] that shrinks [fields]
    to [fields_cnt] slots leaves the row as it is. *)
Definition scan_finish (s : scan) : outcome csv_row_td :=
  s' <- push_field s ;;
  Ok {| fields := sc_fields s'; num_fields := length (sc_fields s') |}.

Definition s_parse_line_to_row_fuel (fuel : nat) (line : list ascii)
    (delim : ascii) : outcome csv_row_td :=
  s <- scan_loop fuel delim (scan_init line) ;;
  scan_finish s.

(** Two passes per byte (a byte seen in [ST_QUOTE_IN_QUOTED] may be seen
    once more in [ST_FIELD]) and one for the terminator. *)
Definition scan_budget (line : list ascii) : nat := 2 * length line + 1.

Definition s_parse_line_to_row (line : list ascii) (delim : ascii)
    : outcome csv_row_td :=
  s_parse_line_to_row_fuel (scan_budget line) line delim.

(** The loop invariant of the scan, at the loop test: both arrays have a
    free slot. *)
Definition scan_wf (s : scan) : Prop :=
  length (sc_fields s) < sc_fields_cap s /\ length (sc_buf s) < sc_buf_cap s.

(** The variant of the scan: two units per byte left, and one more
    while a decision on a quote is pending. *)
Definition scan_measure (s : scan) : nat :=
  2 * length (sc_p s)
  + match sc_state s with ST_QUOTE_IN_QUOTED => 1 | _ => 0 end.

(** The part of the locals that decides the row: the state, the fields
    pushed, the bytes accumulated and the cursor. *)
Definition scan_is (s : scan) (st : scan_state) (fs : list (list ascii))
    (b p : list ascii) : Prop :=
  sc_state s = st /\ sc_fields s = fs /\ sc_buf s = b /\ sc_p s = p.

(** The states the loop test sees, starting from [s]. *)
Inductive scan_reaches (delim : ascii) (s : scan) : scan -> Prop :=
| scan_reaches_here : scan_reaches delim s s
| scan_reaches_again : forall s1 s2,
    scan_reaches delim s s1 ->
    scan_step delim s1 = Ok (Again s2) ->
    scan_reaches delim s s2.

(** A field starts at the head of the line and after each delimiter:
    [pre] is the part of the line before the cursor. *)
Definition at_field_start (delim : ascii) (pre : list ascii) : Prop :=
  pre = [] \/ exists pre', pre = pre' ++ [delim].

Definition bytes (s : string) : list ascii := list_ascii_of_string s.

(** Naive splitting of a line on the delimiter byte, the reference that
    property P2 of the specification compares the tokenizer with: the
    fields are the maximal runs of bytes between delimiters, so a line
    with [n] delimiters has [n + 1] fields and the empty line has one
    empty field.  This definition follows the specification's words; it
    is not part of the source. *)
Fixpoint naive_split (delim : ascii) (line : list ascii) : list (list ascii) :=
  match line with
  | [] => [[]]
  | c :: line' =>
      if Ascii.eqb c delim then [] :: naive_split delim line'
      else match naive_split delim line' with
           | [] => [[c]]
           | f :: fs => (c :: f) :: fs
           end
  end.

(** ** The input stream

    An open [FILE *] is the list of the bytes not yet read. *)

(** The bytes up to and including the next LF (or up to the end of the
    stream), and the bytes after them. *)
Fixpoint read_until_nl (s : list ascii) : list ascii * list ascii :=
  match s with
  | [] => ([], [])
  | c :: s' =>
      if Ascii.eqb c LF then ([c], s')
      else let '(l, r) := read_until_nl s' in (c :: l, r)
  end.

(** [getline]: [None] is the return value -1 at end of file. *)
Definition getline (fp : list ascii) : option (list ascii * list ascii) :=
  match fp with
  | [] => None
  | _ :: _ => Some (read_until_nl fp)
  end.

(** The number of physical lines of a byte stream: one per LF, and one
    more for bytes after the last LF.  [pending] tells whether bytes of
    an unfinished line have been seen. *)
Fixpoint count_lines_from (pending : bool) (s : list ascii) : nat :=
  match s with
  | [] => if pending then 1 else 0
  | c :: s' =>
      if Ascii.eqb c LF then S (count_lines_from false s')
      else count_lines_from true s'
  end.

Definition count_lines (s : list ascii) : nat := count_lines_from false s.

(** [if (len > 0 && line[len - 1] == '\n') { line[len - 1] = '\0'; len--;
      if (len > 0 && line[len - 1] == '\r') { line[len - 1] = '\0'; len--; } }] *)
Definition strip_newline (line : list ascii) : list ascii :=
  if (0 <? length line) && Ascii.eqb (last line NUL) LF then
    let line1 := removelast line in
    if (0 <? length line1) && Ascii.eqb (last line1 NUL) CR
    then removelast line1 else line1
  else line.

(** ** The parser object *)

Record csv_parser_td : Type := mk_parser {
  fp : option (list ascii);
  filename : option (list ascii);
  delim : ascii;
  has_header : bool;
  line_no : N;
  header : option csv_row_td
}.

(** [ptr == NULL] *)
Definition is_null {A : Type} (ptr : option A) : bool :=
  match ptr with
  | None => true
  | Some _ => false
  end.

Definition set_fp (f : option (list ascii)) (p : csv_parser_td) : csv_parser_td :=
  {| fp := f; filename := filename p; delim := delim p;
     has_header := has_header p; line_no := line_no p; header := header p |}.

Definition set_line_no (n : N) (p : csv_parser_td) : csv_parser_td :=
  {| fp := fp p; filename := filename p; delim := delim p;
     has_header := has_header p; line_no := n; header := header p |}.

Definition set_header (h : option csv_row_td) (p : csv_parser_td) : csv_parser_td :=
  {| fp := fp p; filename := filename p; delim := delim p;
     has_header := has_header p; line_no := line_no p; header := h |}.

(** [csv_parser_init]: the arguments [filename] and [delim] are C
    strings or [NULL]. *)
Definition csv_parser_init (filename delim : option (list ascii))
    (has_header : bool) : csv_parser_td :=
  {| fp := None;
     filename := filename;
     line_no := 0%N;
     has_header := has_header;
     header := None;
     delim :=
       match delim with
       | None => COMMA
       | Some d =>
           if Ascii.eqb (deref d) COMMA then COMMA
           else if negb (Ascii.eqb (deref d) NUL)
                   && negb (Ascii.eqb (deref d) LF)
                   && negb (Ascii.eqb (deref d) CR)
                   && negb (Ascii.eqb (deref d) QUOTE)
                then deref d
                else COMMA
       end |}.

(** What the two destructors hand back to the C library, in order. *)
Inductive release : Type :=
| Free_filename (s : list ascii)
| Fclose (unread : list ascii)
| Free_field (f : list ascii)
| Free_fields
| Free_row
| Free_parser.

Definition csv_parser_destroy_row (csv_row : option csv_row_td) : list release :=
  match csv_row with
  | None => []
  | Some r =>
      map Free_field (firstn (num_fields r) (fields r))
      ++ [Free_fields; Free_row]
  end.

Definition csv_parser_destroy (csv_parser : option csv_parser_td) : list release :=
  match csv_parser with
  | None => []
  | Some p =>
      (match filename p with Some f => [Free_filename f] | None => [] end)
      ++ (match fp p with Some s => [Fclose s] | None => [] end)
      ++ (match header p with
          | Some h => csv_parser_destroy_row (Some h)
          | None => []
          end)
      ++ [Free_parser]
  end.

Section Driver.

(** The width of [size_t], and [fopen(path, "rb")]: the bytes of the
    file, or [None] when the file cannot be opened. *)
Variable size_bits : N.
Variable fopen : option (list ascii) -> option (list ascii).

(** [( *line_no)++] *)
Definition size_incr (n : N) : N := ((n + 1) mod 2 ^ size_bits)%N.

(** The loop of [s_read_next_non_skippable_line] on an open stream.
    The result is the line ([None] for the return value -1), the
    stream after the call and the line counter after the call. *)
Fixpoint read_loop (fuel : nat) (s : list ascii) (line_no : N)
    : outcome (option (list ascii) * list ascii * N) :=
  match fuel with
  | O => OutOfFuel
  | S fuel' =>
      match getline s with
      | None => Ok (None, s, line_no)
      | Some (raw, s') =>
          let line_no' := size_incr line_no in
          let line := strip_newline raw in
          if s_line_is_skippable line
          then read_loop fuel' s' line_no'
          else Ok (Some line, s', line_no')
      end
  end.

(** [getline] on a null stream is undefined.  Every pass of the loop
    that does not leave it takes at least one byte from the stream,
    whence the budget. *)
Definition s_read_next_non_skippable_line (fp : option (list ascii))
    (line_no : N) : outcome (option (list ascii) * list ascii * N) :=
  match fp with
  | None => Undefined
  | Some s => read_loop (S (length s)) s line_no
  end.

(** The public operations take the parser pointer and return their
    result together with the parser object after the call ([None] for
    a null pointer).  In [csv_parser_row] the object is read again
    after the call of [csv_parser_header], which returns it as it has
    left it. *)
Definition csv_parser_header (csv_parser : option csv_parser_td)
    : outcome (option csv_row_td * option csv_parser_td) :=
  match csv_parser with
  | None => Ok (None, None)
  | Some p =>
      if negb (has_header p) then Ok (None, Some p)
      else match header p with
           | Some h => Ok (Some h, Some p)
           | None =>
               '(len, s', n') <-
                 s_read_next_non_skippable_line (fp p) (line_no p) ;;
               let p1 := set_line_no n' (set_fp (Some s') p) in
               match len with
               | None => Ok (None, Some p1)
               | Some line =>
                   row <- s_parse_line_to_row line (delim p1) ;;
                   Ok (Some row, Some (set_header (Some row) p1))
               end
           end
  end.

Definition csv_parser_row (csv_parser : option csv_parser_td)
    : outcome (option csv_row_td * option csv_parser_td) :=
  match csv_parser with
  | None => Ok (None, None)
  | Some p =>
      let opened :=
        match fp p with
        | Some _ => Some p
        | None =>
            match fopen (filename p) with
            | Some s => Some (set_fp (Some s) p)
            | None => None
            end
        end in
      match opened with
      | None => Ok (None, Some p)
      | Some p1 =>
          p2 <-
            (if has_header p1 && is_null (header p1)
             then '(_, q) <- csv_parser_header (Some p1) ;;
                  match q with Some p2 => Ok p2 | None => Undefined end
             else Ok p1) ;;
          '(len, s', n') <-
            s_read_next_non_skippable_line (fp p2) (line_no p2) ;;
          let p3 := set_line_no n' (set_fp (Some s') p2) in
          match len with
          | None => Ok (None, Some p3)
          | Some line =>
              row <- s_parse_line_to_row line (delim p3) ;;
              Ok (Some row, Some p3)
          end
      end
  end.

(** The loop of [main]: rows are drawn until [csv_parser_row] returns
    [NULL]. *)
Fixpoint drain (fuel : nat) (csv_parser : option csv_parser_td)
    : outcome (list csv_row_td * option csv_parser_td) :=
  match fuel with
  | O => OutOfFuel
  | S fuel' =>
      '(row, q) <- csv_parser_row csv_parser ;;
      match row with
      | None => Ok ([], q)
      | Some r =>
          '(rows, q') <- drain fuel' q ;;
          Ok (r :: rows, q')
      end
  end.

(** The bytes a parser has not read yet, for a file [content] that
    has not been opened or is open in the parser. *)
Definition unread (content : list ascii) (p : csv_parser_td) : list ascii :=
  match fp p with
  | Some s => s
  | None => content
  end.

(** The parser objects that calls of [csv_parser_header] and
    [csv_parser_row] lead to, starting from [p0]. *)
Inductive parser_reaches (p0 : csv_parser_td) : csv_parser_td -> Prop :=
| parser_reaches_here : parser_reaches p0 p0
| parser_reaches_header : forall p r p',
    parser_reaches p0 p ->
    csv_parser_header (Some p) = Ok (r, Some p') ->
    parser_reaches p0 p'
| parser_reaches_row : forall p r p',
    parser_reaches p0 p ->
    csv_parser_row (Some p) = Ok (r, Some p') ->
    parser_reaches p0 p'.

End Driver.

(** What relates the line counter of a parser on the file [content],
    named [fname], to its stream: the lines read so far and the lines
    still ahead add up to the lines of the file. *)
Definition line_no_inv (fname : option (list ascii)) (content : list ascii)
    (p : csv_parser_td) : Prop :=
  filename p = fname /\
  (fp p = None -> line_no p = 0%N) /\
  (line_no p + N.of_nat (count_lines (unread content p))
   = N.of_nat (count_lines content))%N /\
  length (unread content p) <= length content.


(** ** Reference notions for the properties of the operations

    None of these is in the source; they say what the operations are
    measured against. *)

(** A field written with quotes, as the header file describes the input
    format: the bytes between two double quotes, each double quote of
    the field written twice. *)
Fixpoint escape_quotes (f : list ascii) : list ascii :=
  match f with
  | [] => []
  | c :: f' =>
      if Ascii.eqb c QUOTE then QUOTE :: QUOTE :: escape_quotes f'
      else c :: escape_quotes f'
  end.

Definition quote_field (f : list ascii) : list ascii :=
  QUOTE :: escape_quotes f ++ [QUOTE].

(** Fields written one after the other with the delimiter between
    them. *)
Fixpoint join_fields (delim : ascii) (fs : list (list ascii)) : list ascii :=
  match fs with
  | [] => []
  | f :: fs' =>
      match fs' with
      | [] => f
      | _ :: _ => f ++ delim :: join_fields delim fs'
      end
  end.

(** A byte that the scan of an unquoted field takes as data when it is
    not the delimiter. *)
Definition plain_byte (c : ascii) : Prop :=
  c <> QUOTE /\ c <> CR /\ c <> LF /\ c <> NUL.

(** The physical lines of a stream, each with its LF when it has one. *)
Fixpoint split_lines (s : list ascii) : list (list ascii) :=
  match s with
  | [] => []
  | c :: s' =>
      if Ascii.eqb c LF then [c] :: split_lines s'
      else match split_lines s' with
           | [] => [[c]]
           | l :: ls => (c :: l) :: ls
           end
  end.

(** The lines of a stream that carry data: the physical lines without
    their line ending, blank and comment lines left out. *)
Definition data_lines (s : list ascii) : list (list ascii) :=
  filter (fun l => negb (s_line_is_skippable l))
         (map strip_newline (split_lines s)).

(** The data lines that [csv_parser_row] has still to return: the data
    lines not read yet, less the header line when it is still to be
    read. *)
Definition rows_ahead (content : list ascii) (p : csv_parser_td)
    : list (list ascii) :=
  if has_header p && is_null (header p)
  then tl (data_lines (unread content p))
  else data_lines (unread content p).

(** What the scan has produced so far is made of bytes of the line,
    none of them NUL, and the cursor is inside the line. *)
Definition scan_from_line (line : list ascii) (s : scan) : Prop :=
  Forall (Forall (fun c => In c line /\ c <> NUL)) (sc_fields s) /\
  Forall (fun c => In c line /\ c <> NUL) (sc_buf s) /\
  incl (sc_p s) line.

(** * Properties of the tokenizer *)

Lemma ascii_eqb_false (a b : ascii) : a <> b -> Ascii.eqb a b = false.
Proof. intros H. apply Ascii.eqb_neq. exact H. Qed.

Lemma bind_ok {A B : Type} (m : outcome A) (k : A -> outcome B) (b : B) :
  bind m k = Ok b -> exists a, m = Ok a /\ k a = Ok b.
Proof. destruct m; simpl; intros H; try discriminate. eauto. Qed.

Lemma store_ok {A : Type} (idx cap : nat) (a : A) :
  idx < cap -> store idx cap a = Ok a.
Proof.
  intros H. unfold store, in_bounds.
  apply Nat.ltb_lt in H. rewrite H. reflexivity.
Qed.

Lemma store_oob {A : Type} (idx cap : nat) (a : A) :
  cap <= idx -> store idx cap a = Undefined.
Proof.
  intros H. unfold store, in_bounds.
  destruct (Nat.ltb_spec idx cap); [lia | reflexivity].
Qed.

Lemma push_field_ok (s : scan) :
  scan_wf s ->
  push_field s =
    Ok {| sc_state := sc_state s;
          sc_fields := sc_fields s ++ [sc_buf s];
          sc_fields_cap := sc_fields_cap s;
          sc_buf := []; sc_buf_cap := sc_buf_cap s;
          sc_p := sc_p s |}.
Proof.
  intros [Hf Hb]. unfold push_field.
  rewrite (store_ok _ Hb). simpl. apply store_ok. exact Hf.
Qed.

Lemma append_byte_ok (c : ascii) (s : scan) :
  scan_wf s ->
  exists cap,
    length (sc_buf s) + 1 < cap /\
    append_byte c s =
      Ok {| sc_state := sc_state s;
            sc_fields := sc_fields s; sc_fields_cap := sc_fields_cap s;
            sc_buf := sc_buf s ++ [c]; sc_buf_cap := cap;
            sc_p := sc_p s |}.
Proof.
  intros [Hf Hb]. unfold append_byte, put_byte, grow_buf. simpl.
  destruct (Nat.leb_spec (sc_buf_cap s) (length (sc_buf s) + 1)).
  - exists (sc_buf_cap s * 2). split; [lia |].
    apply store_ok. lia.
  - exists (sc_buf_cap s). split; [lia |].
    apply store_ok. lia.
Qed.

(** One pass of the loop, case by case, for locals that satisfy the
    invariant: no store is out of bounds, and the outcome is the one of
    the transition table. *)
Lemma scan_step_spec (d : ascii) (s : scan) :
  scan_wf s ->
  exists f, scan_step d s = Ok f /\
  match sc_p s with
  | [] => f = Break s
  | c :: rest =>
      if Ascii.eqb c NUL then f = Break s else
      match sc_state s with
      | ST_FIELD =>
          if Ascii.eqb c d then
            exists s', f = Again s' /\ scan_wf s' /\
              scan_is s' ST_FIELD (sc_fields s ++ [sc_buf s]) [] rest
          else if Ascii.eqb c QUOTE then
            match sc_buf s with
            | [] => exists s', f = Again s' /\ scan_wf s' /\
                      scan_is s' ST_QUOTED_FIELD (sc_fields s) [] rest
            | _ :: _ => exists s', f = Again s' /\ scan_wf s' /\
                      scan_is s' ST_FIELD (sc_fields s) (sc_buf s ++ [c]) rest
            end
          else if Ascii.eqb c CR || Ascii.eqb c LF then f = Break s
          else exists s', f = Again s' /\ scan_wf s' /\
                 scan_is s' ST_FIELD (sc_fields s) (sc_buf s ++ [c]) rest
      | ST_QUOTED_FIELD =>
          if Ascii.eqb c QUOTE then
            exists s', f = Again s' /\ scan_wf s' /\
              scan_is s' ST_QUOTE_IN_QUOTED (sc_fields s) (sc_buf s) rest
          else exists s', f = Again s' /\ scan_wf s' /\
                 scan_is s' ST_QUOTED_FIELD (sc_fields s) (sc_buf s ++ [c]) rest
      | ST_QUOTE_IN_QUOTED =>
          if Ascii.eqb c QUOTE then
            exists s', f = Again s' /\ scan_wf s' /\
              scan_is s' ST_QUOTED_FIELD (sc_fields s) (sc_buf s ++ [QUOTE]) rest
          else if Ascii.eqb c d then
            exists s', f = Again s' /\ scan_wf s' /\
              scan_is s' ST_FIELD (sc_fields s ++ [sc_buf s]) [] rest
          else if Ascii.eqb c CR || Ascii.eqb c LF || Ascii.eqb c NUL then
            exists s', f = Break s' /\
              length (sc_fields s') <= sc_fields_cap s' /\
              length (sc_buf s') < sc_buf_cap s' /\
              scan_is s' ST_FIELD (sc_fields s ++ [sc_buf s]) [] (c :: rest)
          else
            exists s', f = Again s' /\ scan_wf s' /\
              scan_is s' ST_FIELD (sc_fields s ++ [sc_buf s]) [] (c :: rest)
      end
  end.
Proof.
  intros Hwf. unfold scan_step.
  destruct (sc_p s) as [| c rest] eqn:Hp.
  { eexists. split; reflexivity. }
  destruct (Ascii.eqb c NUL) eqn:Hnul.
  { eexists. split; reflexivity. }
  pose proof (push_field_ok Hwf) as Hpush.
  destruct (append_byte_ok c Hwf) as [capc [Hcapc Happc]].
  destruct (append_byte_ok QUOTE Hwf) as [capq [Hcapq Happq]].
  destruct Hwf as [Hf Hb].
  unfold scan_body.
  destruct (sc_state s) eqn:Hst.
  - (* ST_FIELD *)
    destruct (Ascii.eqb c d).
    + rewrite Hpush. simpl. eexists. split; [reflexivity |].
      eexists. split; [reflexivity |].
      unfold scan_wf, scan_is; simpl. rewrite Hp, length_app; simpl.
      destruct (Nat.eqb_spec (length (sc_fields s) + 1) (sc_fields_cap s));
        repeat split; lia.
    + destruct (Ascii.eqb c QUOTE).
      * destruct (sc_buf s) as [| b0 bs] eqn:Hbuf; simpl.
        -- eexists. split; [reflexivity |].
           eexists. split; [reflexivity |].
           unfold scan_wf, scan_is; simpl. rewrite Hp, Hbuf; simpl.
           repeat split; assumption.
        -- rewrite Happc. simpl. eexists. split; [reflexivity |].
           eexists. split; [reflexivity |].
           unfold scan_wf, scan_is; simpl. rewrite Hp, length_app; simpl.
           simpl in Hcapc. repeat split; lia.
      * destruct (Ascii.eqb c CR || Ascii.eqb c LF).
        -- eexists. split; reflexivity.
        -- rewrite Happc. simpl. eexists. split; [reflexivity |].
           eexists. split; [reflexivity |].
           unfold scan_wf, scan_is; simpl. rewrite Hp, length_app; simpl.
           repeat split; lia.
  - (* ST_QUOTED_FIELD *)
    destruct (Ascii.eqb c QUOTE).
    + eexists. split; [reflexivity |].
      eexists. split; [reflexivity |].
      unfold scan_wf, scan_is; simpl. rewrite Hp. repeat split; assumption.
    + rewrite Happc. simpl. eexists. split; [reflexivity |].
      eexists. split; [reflexivity |].
      unfold scan_wf, scan_is; simpl. rewrite Hp, length_app; simpl.
      repeat split; lia.
  - (* ST_QUOTE_IN_QUOTED *)
    destruct (Ascii.eqb c QUOTE).
    + rewrite Happq. simpl. eexists. split; [reflexivity |].
      eexists. split; [reflexivity |].
      unfold scan_wf, scan_is; simpl. rewrite Hp, length_app; simpl.
      repeat split; lia.
    + destruct (Ascii.eqb c d).
      * rewrite Hpush. simpl. eexists. split; [reflexivity |].
        eexists. split; [reflexivity |].
        unfold scan_wf, scan_is; simpl. rewrite Hp, length_app; simpl.
        destruct (Nat.eqb_spec (length (sc_fields s) + 1) (sc_fields_cap s));
          repeat split; lia.
      * rewrite Hnul, !orb_false_r.
        destruct (Ascii.eqb c CR || Ascii.eqb c LF).
        -- rewrite Hpush. simpl. eexists. split; [reflexivity |].
           eexists. split; [reflexivity |].
           unfold scan_is; simpl. rewrite length_app; simpl.
           repeat split; try lia. exact Hp.
        -- rewrite Hpush. simpl. eexists. split; [reflexivity |].
           eexists. split; [reflexivity |].
           unfold scan_wf, scan_is; simpl. rewrite length_app; simpl.
           destruct (Nat.eqb_spec (length (sc_fields s) + 1) (sc_fields_cap s));
             repeat split; try lia; exact Hp.
Qed.

(** Case analysis along [scan_step_spec]: one goal per row of the
    transition table, with the outcome [f] of the pass described in
    the context. *)
Ltac scan_cases d s Hwf :=
  let f := fresh "f" in
  let Hstep := fresh "Hstep" in
  let Hspec := fresh "Hspec" in
  destruct (scan_step_spec d (s := s) Hwf) as [f [Hstep Hspec]];
  let c := fresh "c" in
  let rest := fresh "rest" in
  destruct (sc_p s) as [| c rest] eqn:Hp;
  [ | destruct (Ascii.eqb c NUL) eqn:Hnul;
      [ | destruct (sc_state s) eqn:Hst;
          [ destruct (Ascii.eqb c d) eqn:Hd;
            [ | destruct (Ascii.eqb c QUOTE) eqn:Hq;
                [ destruct (sc_buf s) eqn:Hbuf
                | destruct (Ascii.eqb c CR || Ascii.eqb c LF) eqn:Hnl ] ]
          | destruct (Ascii.eqb c QUOTE) eqn:Hq
          | destruct (Ascii.eqb c QUOTE) eqn:Hq;
            [ | destruct (Ascii.eqb c d) eqn:Hd;
                [ | rewrite ?orb_false_r in Hspec;
                    destruct (Ascii.eqb c CR || Ascii.eqb c LF) eqn:Hnl ] ] ] ] ];
  repeat match goal with
         | H : exists _, _ |- _ => destruct H
         | H : _ /\ _ |- _ => destruct H
         | H : scan_is _ _ _ _ _ |- _ => unfold scan_is in H
         end;
  subst f.

Lemma scan_step_again (d : ascii) (s s' : scan) :
  scan_wf s -> scan_step d s = Ok (Again s') ->
  scan_wf s' /\ scan_measure s' < scan_measure s.
Proof.
  intros Hwf H. scan_cases d s Hwf;
    rewrite H in Hstep; inversion Hstep; subst;
    (split; [assumption |]);
    unfold scan_measure;
    repeat match goal with
           | E : sc_p _ = _ |- _ => rewrite E
           | E : sc_state _ = _ |- _ => rewrite E
           end; simpl; lia.
Qed.

Lemma scan_step_break (d : ascii) (s s' : scan) :
  scan_wf s -> scan_step d s = Ok (Break s') ->
  length (sc_fields s') <= sc_fields_cap s' /\
  length (sc_buf s') < sc_buf_cap s'.
Proof.
  intros Hwf H. scan_cases d s Hwf;
    rewrite H in Hstep; inversion Hstep; subst;
    destruct Hwf; split; lia.
Qed.

(** The scan loop ends within any budget above the variant. *)
Lemma scan_loop_ends (d : ascii) (fuel : nat) :
  forall s, scan_wf s -> scan_measure s < fuel ->
  exists s', scan_loop fuel d s = Ok s'.
Proof.
  induction fuel as [| fuel IH]; intros s Hwf Hm; [lia |].
  destruct (scan_step_spec d Hwf) as [f [Hstep _]].
  simpl. rewrite Hstep. simpl.
  destruct f as [s1 | s1].
  - destruct (scan_step_again _ Hwf Hstep) as [Hwf1 Hm1].
    apply IH; [assumption | lia].
  - eauto.
Qed.

(** A larger budget does not change the result. *)
Lemma scan_loop_more_fuel (d : ascii) (fuel : nat) :
  forall s s' fuel', scan_loop fuel d s = Ok s' -> fuel <= fuel' ->
  scan_loop fuel' d s = Ok s'.
Proof.
  induction fuel as [| fuel IH]; intros s s' fuel' H Hle;
    [discriminate |].
  destruct fuel' as [| fuel']; [lia |].
  simpl in *. destruct (scan_step d s) as [f | |]; simpl in *;
    try discriminate.
  destruct f as [s1 | s1]; [| assumption].
  apply IH with (1 := H). lia.
Qed.

Lemma scan_init_wf (line : list ascii) : scan_wf (scan_init line).
Proof. unfold scan_wf, scan_init; simpl. lia. Qed.

Lemma scan_init_measure (line : list ascii) :
  scan_measure (scan_init line) < scan_budget line.
Proof. unfold scan_measure, scan_init, scan_budget; simpl. lia. Qed.

(** The loop keeps its invariant up to the exit, where only a free slot
    of [fields] may be missing. *)
Lemma scan_loop_exit (d : ascii) (fuel : nat) :
  forall s s', scan_wf s -> scan_loop fuel d s = Ok s' ->
  length (sc_fields s') <= sc_fields_cap s' /\
  length (sc_buf s') < sc_buf_cap s'.
Proof.
  induction fuel as [| fuel IH]; intros s s' Hwf H; [discriminate |].
  simpl in H. apply bind_ok in H. destruct H as [f [Hstep H]].
  destruct f as [s1 | s1].
  - destruct (scan_step_again _ Hwf Hstep) as [Hwf1 _]. eauto.
  - inversion H; subst. eapply scan_step_break; eauto.
Qed.

Lemma scan_reaches_wf (d : ascii) (s s' : scan) :
  scan_wf s -> scan_reaches d s s' -> scan_wf s'.
Proof.
  intros Hwf H. induction H as [| s1 s2 _ IH Hstep]; [assumption |].
  apply (scan_step_again _ IH Hstep).
Qed.

(** In [ST_FIELD] a pass that goes back to the loop test has moved the
    cursor; a pass that leaves the cursor where it was started in
    [ST_QUOTE_IN_QUOTED] and ends in [ST_FIELD]. *)
Lemma scan_step_cursor (d : ascii) (s s' : scan) :
  scan_wf s -> scan_step d s = Ok (Again s') ->
  (sc_p s <> [] /\ sc_p s' = tl (sc_p s)) \/
  (sc_state s = ST_QUOTE_IN_QUOTED /\ sc_state s' = ST_FIELD /\
   sc_p s' = sc_p s).
Proof.
  intros Hwf H. scan_cases d s Hwf;
    rewrite H in Hstep; inversion Hstep; subst;
    try (left; split; [discriminate | reflexivity]).
  right. repeat split; assumption.
Qed.

(** The exit of the loop in [ST_QUOTED_FIELD] is the one through the
    loop test, where the invariant holds. *)
Lemma scan_loop_exit_quoted (d : ascii) (fuel : nat) :
  forall s s', scan_wf s -> scan_loop fuel d s = Ok s' ->
  sc_state s' = ST_QUOTED_FIELD -> scan_wf s'.
Proof.
  induction fuel as [| fuel IH]; intros s s' Hwf H Hquoted; [discriminate |].
  simpl in H. apply bind_ok in H. destruct H as [f [Hstep' H]].
  destruct f as [s1 | s1].
  - destruct (scan_step_again _ Hwf Hstep') as [Hwf1 _]. eauto.
  - inversion H; subst. clear H.
    scan_cases d s Hwf; rewrite Hstep' in Hstep; inversion Hstep; subst;
      try assumption.
    congruence.
Qed.

(** What [s_parse_line_to_row] can do on a line: return a row with at
    least one field, or store [fields[fields_cnt]] with
    [fields_cnt == fields_cap] after the loop. *)
Lemma tokenizer_outcome (line : list ascii) (d : ascii) :
  (exists row, s_parse_line_to_row line d = Ok row /\
     1 <= num_fields row /\ num_fields row = length (fields row)) \/
  (s_parse_line_to_row line d = Undefined /\
   exists s, scan_loop (scan_budget line) d (scan_init line) = Ok s /\
     length (sc_fields s) = sc_fields_cap s).
Proof.
  destruct (scan_loop_ends d (scan_init_wf line) (scan_init_measure line))
    as [s Hs].
  destruct (scan_loop_exit _ _ (scan_init_wf line) Hs) as [Hf Hb].
  unfold s_parse_line_to_row, s_parse_line_to_row_fuel.
  rewrite Hs. simpl. unfold scan_finish, push_field.
  rewrite (store_ok _ Hb). simpl.
  destruct (Nat.eq_dec (length (sc_fields s)) (sc_fields_cap s)) as [E | E].
  - right. split; [| eauto].
    rewrite store_oob by lia. reflexivity.
  - left. rewrite store_ok by lia. simpl.
    eexists. split; [reflexivity |]. simpl.
    rewrite length_app. simpl. lia.
Qed.

Lemma naive_split_cons (d : ascii) (line : list ascii) :
  naive_split d line = hd [] (naive_split d line) :: tl (naive_split d line).
Proof.
  destruct line as [| c line]; simpl; [reflexivity |].
  destruct (Ascii.eqb c d); [reflexivity |].
  destruct (naive_split d line); reflexivity.
Qed.

(** A scan in [ST_FIELD] over bytes that are neither a quote nor a line
    terminator stays in [ST_FIELD] and cuts at the delimiters. *)
Lemma scan_loop_unquoted (d : ascii) (p : list ascii) :
  forall s fuel,
    scan_wf s -> sc_state s = ST_FIELD -> sc_p s = p ->
    (forall c, In c p -> c <> QUOTE /\ c <> CR /\ c <> LF /\ c <> NUL) ->
    length p < fuel ->
    exists s', scan_loop fuel d s = Ok s' /\ scan_wf s' /\
      sc_fields s' ++ [sc_buf s'] =
      sc_fields s
      ++ (sc_buf s ++ hd [] (naive_split d p)) :: tl (naive_split d p).
Proof.
  induction p as [| c p IH]; intros s fuel Hwf Hst Hp Hall Hfuel;
    (destruct fuel as [| fuel]; [simpl in Hfuel; lia |]).
  - simpl. unfold scan_step. rewrite Hp. simpl.
    exists s. rewrite app_nil_r. auto.
  - destruct (Hall c (or_introl eq_refl)) as (Hq & Hcr & Hlf & Hnul).
    assert (Hall' : forall c', In c' p ->
              c' <> QUOTE /\ c' <> CR /\ c' <> LF /\ c' <> NUL)
      by (intros c' Hin; apply Hall; right; exact Hin).
    simpl in Hfuel.
    destruct (scan_step_spec d Hwf) as [f [Hstep Hspec]].
    rewrite Hp, Hst in Hspec.
    rewrite (ascii_eqb_false Hnul), (ascii_eqb_false Hq),
      (ascii_eqb_false Hcr), (ascii_eqb_false Hlf) in Hspec.
    simpl in Hspec. cbn [scan_loop]. rewrite Hstep. simpl.
    destruct (Ascii.eqb c d) eqn:Hd;
      destruct Hspec as [s1 [-> [Hwf1 (Hst1 & Hf1 & Hb1 & Hp1)]]];
      destruct (IH s1 fuel Hwf1 Hst1 Hp1 Hall' ltac:(lia))
        as [s' (Hloop & Hwf' & Hres)];
      exists s'; (split; [exact Hloop |]); (split; [exact Hwf' |]);
      rewrite Hres, Hf1, Hb1.
    + cbn [naive_split]. rewrite ?Hd. cbn [hd tl].
      rewrite <- !app_assoc, app_nil_r. cbn [app].
      rewrite <- naive_split_cons. reflexivity.
    + cbn [naive_split]. rewrite ?Hd.
      destruct (naive_split d p) as [| f0 fs]; cbn [hd tl];
        rewrite <- !app_assoc; reflexivity.
Qed.

Lemma at_field_start_delim (d : ascii) (pre : list ascii) :
  at_field_start d (pre ++ [d]).
Proof. right. exists pre. reflexivity. Qed.

Lemma not_at_field_start (d c : ascii) (pre : list ascii) :
  c <> d -> ~ at_field_start d (pre ++ [c]).
Proof.
  intros Hne [H | [pre' H]].
  - destruct pre; discriminate.
  - apply app_inj_tail in H. destruct H as [_ H]. contradiction.
Qed.

(** Where the cursor is when the scan is in [ST_FIELD] with an empty
    buffer: at the start of a field, or on the byte that followed a
    closing quote and is about to be read again. *)
Lemma field_start_inv (d : ascii) (line : list ascii) :
  d <> QUOTE ->
  forall s, scan_reaches d (scan_init line) s ->
  scan_wf s /\
  exists pre, line = pre ++ sc_p s /\
    match sc_state s with
    | ST_FIELD =>
        (sc_buf s = [] /\ at_field_start d pre) \/
        (sc_buf s = [] /\ ~ at_field_start d pre /\
         exists c r, sc_p s = c :: r /\ c <> QUOTE) \/
        (sc_buf s <> [] /\ ~ at_field_start d pre)
    | ST_QUOTED_FIELD => True
    | ST_QUOTE_IN_QUOTED => ~ at_field_start d pre
    end.
Proof.
  intros Hdq s H. induction H as [| s1 s2 _ IH Hstep'].
  - split; [apply scan_init_wf |].
    exists []. split; [reflexivity |]. simpl. left. split; [reflexivity |].
    left. reflexivity.
  - destruct IH as [Hwf [pre [Hline Hinv]]].
    split; [apply (scan_step_again _ Hwf Hstep') |].
    scan_cases d s1 Hwf; rewrite Hstep' in Hstep; inversion Hstep;
      subst s2;
      repeat match goal with
             | E : Ascii.eqb _ _ = true |- _ => apply Ascii.eqb_eq in E
             | E : Ascii.eqb _ _ = false |- _ => apply Ascii.eqb_neq in E
             | E : sc_state _ = _ |- _ => rewrite E
             | E : sc_p ?x = _ |- context [sc_p ?x] => rewrite E
             | E : sc_buf ?x = _ |- context [sc_buf ?x] => rewrite E
             end.
    all: try (exists (pre ++ [c]); rewrite <- app_assoc;
              split; [exact Hline |]).
    all: try exact I.
    + (* ST_FIELD, delimiter *)
      left. split; [reflexivity |]. subst c. apply at_field_start_delim.
    + (* ST_FIELD, quote after content *)
      right. right. split; [discriminate |].
      apply not_at_field_start. congruence.
    + (* ST_FIELD, other byte *)
      right. right. split; [intros E; destruct (sc_buf s1); discriminate |].
      apply not_at_field_start. assumption.
    + (* ST_QUOTED_FIELD, quote *)
      apply not_at_field_start. congruence.
    + (* ST_QUOTE_IN_QUOTED, delimiter *)
      left. split; [reflexivity |]. subst c. apply at_field_start_delim.
    + (* ST_QUOTE_IN_QUOTED, other byte: the cursor stays *)
      exists pre. split; [exact Hline |].
      right. left. split; [reflexivity |]. split; [exact Hinv |].
      exists c, rest. split; [reflexivity | assumption].
Qed.

(** Two bytes given as literals differ. *)
Ltac byte_neq := apply Ascii.eqb_neq; reflexivity.

Lemma valid_delim_comma : valid_delim COMMA.
Proof. repeat split; byte_neq. Qed.

(** C3: in [ST_QUOTE_IN_QUOTED], a byte that is neither a quote, the
    delimiter, CR, LF nor NUL ends the quoted field: the buffer is
    pushed as the next field and the pass ends without moving the
    cursor; the next pass reads the same byte in [ST_FIELD], where it
    becomes the first byte of the next field and the cursor moves on.
    For the delimiter [,] the line ["hello"world,next] gives the three
    fields [hello], [world], [next], in that order. *)
Theorem quote_then_other_reprocessed :
  (forall (delim : ascii) (s : scan) (c : ascii) (rest : list ascii),
     scan_wf s ->
     sc_state s = ST_QUOTE_IN_QUOTED ->
     sc_p s = c :: rest ->
     c <> QUOTE -> c <> delim -> c <> CR -> c <> LF -> c <> NUL ->
     exists s1 s2,
       scan_step delim s = Ok (Again s1) /\
       scan_is s1 ST_FIELD (sc_fields s ++ [sc_buf s]) [] (c :: rest) /\
       scan_step delim s1 = Ok (Again s2) /\
       scan_is s2 ST_FIELD (sc_fields s ++ [sc_buf s]) [c] rest) /\
  s_parse_line_to_row
    (QUOTE :: bytes "hello" ++ QUOTE :: bytes "world,next") COMMA =
  Ok {| fields := [bytes "hello"; bytes "world"; bytes "next"];
        num_fields := 3 |}.
Proof.
  split; [| reflexivity].
  intros delim s c rest Hwf Hst Hp Hq Hd Hcr Hlf Hnul.
  destruct (scan_step_spec delim Hwf) as [f [Hstep Hspec]].
  rewrite Hp, Hst in Hspec.
  rewrite (ascii_eqb_false Hnul), (ascii_eqb_false Hq),
    (ascii_eqb_false Hd), (ascii_eqb_false Hcr), (ascii_eqb_false Hlf)
    in Hspec.
  simpl in Hspec. destruct Hspec as [s1 [-> [Hwf1 His1]]].
  destruct (scan_step_spec delim Hwf1) as [f [Hstep1 Hspec1]].
  destruct His1 as (Hst1 & Hf1 & Hb1 & Hp1).
  rewrite Hp1, Hst1 in Hspec1.
  rewrite (ascii_eqb_false Hnul), (ascii_eqb_false Hq),
    (ascii_eqb_false Hd), (ascii_eqb_false Hcr), (ascii_eqb_false Hlf)
    in Hspec1.
  simpl in Hspec1. destruct Hspec1 as [s2 [-> [Hwf2 His2]]].
  exists s1, s2. rewrite Hf1, Hb1 in His2. simpl in His2.
  repeat split; try assumption; apply His2.
Qed.

Lemma quote_then_other_reprocessed_witness :
  let s := {| sc_state := ST_QUOTE_IN_QUOTED;
              sc_fields := []; sc_fields_cap := 8;
              sc_buf := bytes "hello"; sc_buf_cap := 128;
              sc_p := bytes "world,next" |} in
  exists s1 s2,
    scan_step COMMA s = Ok (Again s1) /\
    scan_is s1 ST_FIELD [bytes "hello"] [] (bytes "world,next") /\
    scan_step COMMA s1 = Ok (Again s2) /\
    scan_is s2 ST_FIELD [bytes "hello"] (bytes "w") (bytes "orld,next").
Proof.
  intros s.
  apply (proj1 quote_then_other_reprocessed COMMA s "w"%char
           (bytes "orld,next")).
  - unfold scan_wf; simpl; lia.
  - reflexivity.
  - reflexivity.
  - byte_neq.
  - byte_neq.
  - byte_neq.
  - byte_neq.
  - byte_neq.
Defined.

(** C6, as stated, fails: the line [a<CR>b,c] has no double quote, yet
    the tokenizer stops at the CR and returns the single field [a],
    while splitting on [,] gives [a<CR>b] and [c]. *)
Lemma unquoted_line_split_counterexample :
  let line := bytes "a" ++ CR :: bytes "b,c" in
  valid_delim COMMA /\ ~ In QUOTE line /\
  s_parse_line_to_row line COMMA =
    Ok {| fields := [bytes "a"]; num_fields := 1 |} /\
  naive_split COMMA line = [bytes "a" ++ CR :: bytes "b"; bytes "c"] /\
  s_parse_line_to_row line COMMA <>
    Ok {| fields := naive_split COMMA line;
          num_fields := length (naive_split COMMA line) |}.
Proof.
  intros line. split; [apply valid_delim_comma |].
  split; [| split; [reflexivity | split; [reflexivity | discriminate]]].
  simpl. intros H.
  repeat (destruct H as [H | H]; [discriminate H |]). exact H.
Qed.

(** C6, amended: for a line with no double quote, no CR and no LF (and,
    being a C string, no NUL) and a valid delimiter, the tokenizer
    returns exactly the fields that splitting the line on the delimiter
    gives, in the same order. *)
Theorem unquoted_line_split :
  forall (line : list ascii) (delim : ascii),
    valid_delim delim ->
    (forall c, In c line -> c <> QUOTE /\ c <> CR /\ c <> LF /\ c <> NUL) ->
    s_parse_line_to_row line delim =
    Ok {| fields := naive_split delim line;
          num_fields := length (naive_split delim line) |}.
Proof.
  intros line delim _ Hall.
  destruct (@scan_loop_unquoted delim line (scan_init line) (scan_budget line)
              (scan_init_wf line) eq_refl eq_refl Hall)
    as [s (Hloop & Hwf & Hres)].
  { unfold scan_budget. lia. }
  unfold s_parse_line_to_row, s_parse_line_to_row_fuel.
  rewrite Hloop. simpl. unfold scan_finish.
  rewrite (push_field_ok Hwf). simpl.
  rewrite Hres. unfold scan_init. cbn [sc_fields sc_buf app].
  rewrite <- naive_split_cons. reflexivity.
Qed.

Lemma unquoted_line_split_witness :
  s_parse_line_to_row (bytes "a,b,") COMMA =
  Ok {| fields := [bytes "a"; bytes "b"; []]; num_fields := 3 |}.
Proof.
  apply (unquoted_line_split (bytes "a,b,") valid_delim_comma).
  simpl. intros c H.
  repeat (destruct H as [H | H];
          [subst c; repeat split; byte_neq |]).
  contradiction.
Defined.

(** C8: in [ST_FIELD], with a valid delimiter, a double quote opens a
    quoted field exactly when the accumulation buffer is empty, and is
    appended to the buffer as a literal byte otherwise; and on a scan
    that started at the head of a line the buffer is empty at a quote
    exactly when the quote is the first byte of the line or follows a
    delimiter. *)
Theorem quote_opens_at_field_start :
  forall delim : ascii,
    valid_delim delim ->
    (forall (s : scan) (rest : list ascii),
       scan_wf s -> sc_state s = ST_FIELD -> sc_p s = QUOTE :: rest ->
       exists s',
         scan_step delim s = Ok (Again s') /\
         ((sc_buf s = [] /\
           scan_is s' ST_QUOTED_FIELD (sc_fields s) [] rest) \/
          (sc_buf s <> [] /\
           scan_is s' ST_FIELD (sc_fields s) (sc_buf s ++ [QUOTE]) rest))) /\
    (forall (line : list ascii) (s : scan) (rest : list ascii),
       scan_reaches delim (scan_init line) s ->
       sc_state s = ST_FIELD -> sc_p s = QUOTE :: rest ->
       exists pre,
         line = pre ++ QUOTE :: rest /\
         (sc_buf s = [] <-> at_field_start delim pre)).
Proof.
  intros delim (_ & _ & Hdq & _). split.
  - intros s rest Hwf Hst Hp.
    destruct (scan_step_spec delim Hwf) as [f [Hstep Hspec]].
    rewrite Hp, Hst in Hspec.
    assert (Hqd : Ascii.eqb QUOTE delim = false)
      by (apply Ascii.eqb_neq; congruence).
    rewrite Hqd in Hspec. simpl in Hspec.
    destruct (sc_buf s) as [| b bs] eqn:Hbuf;
      destruct Hspec as [s' [-> [_ His]]]; exists s';
      (split; [exact Hstep |]).
    + left. split; [reflexivity | exact His].
    + right. split; [discriminate | exact His].
  - intros line s rest Hreach Hst Hp.
    destruct (@field_start_inv delim line Hdq s Hreach)
      as [_ [pre [Hline Hinv]]].
    rewrite Hst in Hinv. exists pre. rewrite Hp in Hline.
    split; [exact Hline |].
    destruct Hinv as [[Hb Hs] | [[Hb [Hn [c [r [Hc Hcq]]]]] | [Hb Hn]]].
    + tauto.
    + rewrite Hp in Hc. inversion Hc. congruence.
    + tauto.
Qed.

Lemma quote_opens_at_field_start_witness :
  let s := {| sc_state := ST_FIELD;
              sc_fields := []; sc_fields_cap := 8;
              sc_buf := bytes "ab"; sc_buf_cap := 128;
              sc_p := QUOTE :: bytes "cd" |} in
  exists s',
    scan_step COMMA s = Ok (Again s') /\
    ((sc_buf s = [] /\ scan_is s' ST_QUOTED_FIELD [] [] (bytes "cd")) \/
     (sc_buf s <> [] /\
      scan_is s' ST_FIELD [] (bytes "ab" ++ [QUOTE]) (bytes "cd"))).
Proof.
  intros s.
  apply (proj1 (quote_opens_at_field_start valid_delim_comma) s (bytes "cd")).
  - unfold scan_wf; simpl; lia.
  - reflexivity.
  - reflexivity.
Defined.

(** C9: the scan loop of the tokenizer ends on every line, within two
    passes per byte and one for the terminator, and a larger budget
    gives the same locals; the tokenizer never runs out of budget.  A
    pass that returns to the loop test has moved the cursor, except the
    one that leaves [ST_QUOTE_IN_QUOTED] for [ST_FIELD] to read the byte
    again, and a pass that starts in [ST_FIELD] always moves it: the
    variant [scan_measure] decreases at every pass. *)
Theorem scan_terminates :
  forall (line : list ascii) (delim : ascii),
    (exists s,
       scan_loop (scan_budget line) delim (scan_init line) = Ok s /\
       forall fuel, scan_budget line <= fuel ->
         scan_loop fuel delim (scan_init line) = Ok s) /\
    s_parse_line_to_row line delim <> OutOfFuel /\
    (forall s s',
       scan_reaches delim (scan_init line) s ->
       scan_step delim s = Ok (Again s') ->
       scan_measure s' < scan_measure s /\
       ((sc_p s <> [] /\ sc_p s' = tl (sc_p s)) \/
        (sc_state s = ST_QUOTE_IN_QUOTED /\ sc_state s' = ST_FIELD /\
         sc_p s' = sc_p s)) /\
       (sc_state s = ST_FIELD -> sc_p s <> [] /\ sc_p s' = tl (sc_p s))).
Proof.
  intros line delim. split; [| split].
  - destruct (scan_loop_ends delim (scan_init_wf line)
                (scan_init_measure line)) as [s Hs].
    exists s. split; [exact Hs |].
    intros fuel Hle. eapply scan_loop_more_fuel; eassumption.
  - destruct (tokenizer_outcome line delim) as [[row [H _]] | [H _]];
      rewrite H; discriminate.
  - intros s s' Hreach Hstep.
    pose proof (scan_reaches_wf (scan_init_wf line) Hreach) as Hwf.
    split; [apply (scan_step_again _ Hwf Hstep) |].
    pose proof (scan_step_cursor _ Hwf Hstep) as Hc.
    split; [exact Hc |].
    intros Hst. destruct Hc as [Hc | [Hc _]]; [exact Hc | congruence].
Qed.

Lemma scan_terminates_witness :
  let line := QUOTE :: bytes "a" ++ QUOTE :: bytes "b" in
  let s := {| sc_state := ST_QUOTED_FIELD;
              sc_fields := []; sc_fields_cap := 8;
              sc_buf := []; sc_buf_cap := 128;
              sc_p := bytes "a" ++ QUOTE :: bytes "b" |} in
  scan_measure s < scan_measure (scan_init line).
Proof.
  intros line s.
  destruct (scan_terminates line COMMA) as (_ & _ & H).
  apply (H (scan_init line) s).
  - apply scan_reaches_here.
  - reflexivity.
Defined.

(** * Properties of the stream driver *)

Lemma read_until_nl_length (s : list ascii) :
  length (snd (read_until_nl s)) <= length s.
Proof.
  induction s as [| c s IH]; simpl; [lia |].
  destruct (Ascii.eqb c LF); simpl; [lia |].
  destruct (read_until_nl s) as [l r]. simpl in *. lia.
Qed.

Lemma count_lines_from_read (s : list ascii) :
  forall pending, s <> [] \/ pending = true ->
  count_lines_from pending s = S (count_lines (snd (read_until_nl s))).
Proof.
  induction s as [| c s IH]; intros pending H.
  - destruct H as [H | H]; [contradiction | subst]. reflexivity.
  - simpl. destruct (Ascii.eqb c LF); [reflexivity |].
    rewrite (IH true) by (right; reflexivity).
    destruct (read_until_nl s) as [l r]. reflexivity.
Qed.

(** A successful [getline] takes one physical line, and at least one
    byte, from the stream. *)
Lemma getline_some (s raw s' : list ascii) :
  getline s = Some (raw, s') ->
  count_lines s = S (count_lines s') /\ length s' < length s.
Proof.
  destruct s as [| c s]; [discriminate |].
  unfold getline. intros H.
  assert (Hs : s' = snd (read_until_nl (c :: s))).
  { assert (E : read_until_nl (c :: s) = (raw, s')) by congruence.
    rewrite E. reflexivity. }
  subst s'. split.
  - apply count_lines_from_read. left. discriminate.
  - clear H. simpl. destruct (Ascii.eqb c LF); simpl; [lia |].
    pose proof (read_until_nl_length s).
    destruct (read_until_nl s) as [l r]. simpl in *. lia.
Qed.

Lemma getline_none (s : list ascii) : getline s = None -> s = [].
Proof. destruct s; [reflexivity | discriminate]. Qed.

Section DriverFacts.

Variable size_bits : N.
Variable fopen : option (list ascii) -> option (list ascii).

Lemma size_incr_fits (n bound : N) :
  (n < bound)%N -> (bound < 2 ^ size_bits)%N ->
  size_incr size_bits n = (n + 1)%N.
Proof.
  intros H1 H2. unfold size_incr. apply N.mod_small. lia.
Qed.

(** The reading loop ends within its budget, at the end of the stream
    or on a line that is not skippable. *)
Lemma read_loop_ends (fuel : nat) :
  forall s ln, length s < fuel ->
  exists r s' ln',
    read_loop size_bits fuel s ln = Ok (r, s', ln') /\
    match r with
    | None => s' = []
    | Some line => length s' < length s /\ s_line_is_skippable line = false
    end.
Proof.
  induction fuel as [| fuel IH]; intros s ln Hf; [lia |].
  simpl. destruct (getline s) as [[raw s1] |] eqn:Hg.
  - destruct (getline_some _ Hg) as [_ Hlen].
    destruct (s_line_is_skippable (strip_newline raw)) eqn:Hskip.
    + destruct (IH s1 (size_incr size_bits ln)) as (r & s' & ln' & H & Hr);
        [lia |].
      exists r, s', ln'. split; [exact H |].
      destruct r; [| exact Hr]. split; [lia | apply Hr].
    + eexists _, _, _. split; [reflexivity |]. simpl. auto.
  - apply getline_none in Hg. subst.
    eexists _, _, _. split; reflexivity.
Qed.

(** The counter grows by one for each physical line the loop takes
    from the stream, skipped or not. *)
Lemma read_loop_counts (fuel : nat) :
  forall s ln r s' ln',
    (ln + N.of_nat (count_lines s) < 2 ^ size_bits)%N ->
    read_loop size_bits fuel s ln = Ok (r, s', ln') ->
    (ln' + N.of_nat (count_lines s') = ln + N.of_nat (count_lines s))%N /\
    (ln <= ln')%N /\ length s' <= length s.
Proof.
  induction fuel as [| fuel IH]; intros s ln r s' ln' Hfit H;
    [discriminate |].
  simpl in H. destruct (getline s) as [[raw s1] |] eqn:Hg.
  - destruct (getline_some _ Hg) as [Hcount Hlen].
    assert (Hincr : size_incr size_bits ln = (ln + 1)%N)
      by (apply size_incr_fits with (bound := (ln + N.of_nat (count_lines s))%N);
          lia).
    rewrite Hincr in H.
    destruct (s_line_is_skippable (strip_newline raw)).
    + apply IH in H; [| lia]. lia.
    + inversion H; subst. lia.
  - inversion H; subst. lia.
Qed.

Lemma bind_in_budget {A B : Type} (m : outcome A) (k : A -> outcome B) :
  m <> OutOfFuel -> (forall a, k a <> OutOfFuel) -> bind m k <> OutOfFuel.
Proof.
  intros Hm Hk. destruct m; simpl;
    [apply Hk | discriminate | contradiction].
Qed.

Lemma tokenizer_in_budget (line : list ascii) (d : ascii) :
  s_parse_line_to_row line d <> OutOfFuel.
Proof.
  destruct (tokenizer_outcome line d) as [[row [H _]] | [H _]];
    rewrite H; discriminate.
Qed.

Lemma read_next_in_budget (f : option (list ascii)) (ln : N) :
  s_read_next_non_skippable_line size_bits f ln <> OutOfFuel.
Proof.
  destruct f as [s |]; unfold s_read_next_non_skippable_line;
    [| discriminate].
  destruct (@read_loop_ends (S (length s)) s ln) as (r & s' & ln' & H & _);
    [lia |].
  rewrite H. discriminate.
Qed.

Lemma csv_parser_header_in_budget (cp : option csv_parser_td) :
  csv_parser_header size_bits cp <> OutOfFuel.
Proof.
  destruct cp as [p |]; simpl; [| discriminate].
  destruct (has_header p); simpl; [| discriminate].
  destruct (header p); [discriminate |].
  apply bind_in_budget; [apply read_next_in_budget |].
  intros [[len s'] n']. destruct len; [| discriminate].
  apply bind_in_budget; [apply tokenizer_in_budget | discriminate].
Qed.

Lemma csv_parser_row_in_budget (cp : option csv_parser_td) :
  csv_parser_row size_bits fopen cp <> OutOfFuel.
Proof.
  destruct cp as [p |]; [| discriminate]. unfold csv_parser_row.
  destruct (match fp p with
            | Some _ => Some p
            | None => match fopen (filename p) with
                      | Some s => Some (set_fp (Some s) p)
                      | None => None
                      end
            end) as [p1 |]; [| discriminate].
  apply bind_in_budget.
  - destruct (has_header p1 && is_null (header p1)); [| discriminate].
    apply bind_in_budget; [apply csv_parser_header_in_budget |].
    intros [r q]. destruct q; discriminate.
  - intros p2. apply bind_in_budget; [apply read_next_in_budget |].
    intros [[len s'] n']. destruct len; [| discriminate].
    apply bind_in_budget; [apply tokenizer_in_budget | discriminate].
Qed.

Variable fname : option (list ascii).
Variable content : list ascii.
Hypothesis Hopen : fopen fname = Some content.
Hypothesis Hfit : (N.of_nat (count_lines content) < 2 ^ size_bits)%N.

Lemma line_no_inv_init (d : option (list ascii)) (hh : bool) :
  line_no_inv fname content (csv_parser_init fname d hh).
Proof.
  clear Hopen Hfit.
  unfold line_no_inv, unread; simpl. repeat split; lia.
Qed.

(** One call of the line reader from a parser that satisfies the
    invariant. *)
Lemma read_next_inv (p : csv_parser_td) len s' n' :
  line_no_inv fname content p ->
  s_read_next_non_skippable_line size_bits (fp p) (line_no p)
    = Ok (len, s', n') ->
  let p1 := set_line_no n' (set_fp (Some s') p) in
  line_no_inv fname content p1 /\ (line_no p <= line_no p1)%N /\
  match len with
  | None => s' = []
  | Some _ => length s' < length (unread content p)
  end.
Proof.
  intros (Hname & Hzero & Hsum & Hlen) H. unfold unread in *.
  destruct (fp p) as [s |] eqn:Hfp; [| discriminate].
  unfold s_read_next_non_skippable_line in H.
  destruct (@read_loop_ends (S (length s)) s (line_no p))
    as (r & s1 & ln1 & Hends & Hr); [lia |].
  rewrite H in Hends. inversion Hends; subst r s1 ln1. clear Hends.
  apply read_loop_counts in H; [| lia].
  destruct H as (Hc & Hmono & Hle).
  unfold line_no_inv, unread; simpl.
  repeat split; try assumption; try discriminate; try lia.
  destruct len; [apply Hr | exact Hr].
Qed.

Lemma csv_parser_header_inv (p : csv_parser_td) r p' :
  line_no_inv fname content p ->
  csv_parser_header size_bits (Some p) = Ok (r, Some p') ->
  line_no_inv fname content p' /\ (line_no p <= line_no p')%N /\
  length (unread content p') <= length (unread content p).
Proof.
  intros Hinv H. unfold csv_parser_header in H.
  destruct (has_header p); simpl in H;
    [| inversion H; subst; repeat split; [apply Hinv .. | lia | lia]].
  destruct (header p);
    [inversion H; subst; repeat split; [apply Hinv .. | lia | lia] |].
  apply bind_ok in H. destruct H as [[[len s'] n'] [Hread H]].
  destruct (read_next_inv Hinv Hread) as (Hinv1 & Hmono & Hlen).
  assert (Hle : length s' <= length (unread content p)).
  { destruct len; [lia | subst s'; simpl; lia]. }
  destruct len as [line |].
  - apply bind_ok in H. destruct H as [row [_ H]].
    inversion H; subst. split; [exact Hinv1 |]. split; [exact Hmono |].
    exact Hle.
  - inversion H; subst. split; [exact Hinv1 |]. split; [exact Hmono |].
    exact Hle.
Qed.

Lemma csv_parser_row_inv (p : csv_parser_td) r q :
  line_no_inv fname content p ->
  csv_parser_row size_bits fopen (Some p) = Ok (r, q) ->
  exists p', q = Some p' /\ line_no_inv fname content p' /\
    (line_no p <= line_no p')%N /\
    match r with
    | None => fp p' = Some [] /\
              line_no p' = N.of_nat (count_lines content)
    | Some _ => length (unread content p') < length (unread content p)
    end.
Proof.
  intros Hinv H. unfold csv_parser_row in H.
  set (opened := match fp p with
                 | Some _ => Some p
                 | None => match fopen (filename p) with
                           | Some s => Some (set_fp (Some s) p)
                           | None => None
                           end
                 end) in H.
  assert (Hopened : exists p1, opened = Some p1 /\
            line_no_inv fname content p1 /\
            line_no p1 = line_no p /\
            unread content p1 = unread content p).
  { subst opened. destruct Hinv as (Hname & Hzero & Hsum & Hlen).
    destruct (fp p) as [s |] eqn:Hfp.
    - exists p. unfold line_no_inv. rewrite Hfp. auto 10.
    - rewrite Hname, Hopen. eexists. split; [reflexivity |].
      unfold line_no_inv, unread in *; simpl. rewrite Hfp in *.
      repeat split; try assumption; try discriminate. }
  destruct Hopened as (p1 & -> & Hinv1 & Hln1 & Hun1).
  apply bind_ok in H. destruct H as [p2 [Hhdr H]].
  assert (Hp2 : line_no_inv fname content p2 /\
            (line_no p1 <= line_no p2)%N /\
            length (unread content p2) <= length (unread content p1)).
  { destruct (has_header p1 && is_null (header p1)).
    - apply bind_ok in Hhdr. destruct Hhdr as [[r0 q0] [Hh Hq]].
      destruct q0 as [p2' |]; [| discriminate].
      inversion Hq; subst p2'. apply (csv_parser_header_inv Hinv1 Hh).
    - inversion Hhdr; subst. split; [exact Hinv1 |]. split; lia. }
  destruct Hp2 as (Hinv2 & Hmono2 & Hlen2).
  apply bind_ok in H. destruct H as [[[len s'] n'] [Hread H]].
  destruct (read_next_inv Hinv2 Hread) as (Hinv3 & Hmono3 & Hlen3).
  set (p3 := set_line_no n' (set_fp (Some s') p2)) in *.
  assert (Hres : q = Some p3 /\ (len = None <-> r = None)).
  { destruct len as [line |].
    - apply bind_ok in H. destruct H as [row [_ H]].
      inversion H; subst. split; [reflexivity |]. split; discriminate.
    - inversion H; subst. tauto. }
  destruct Hres as [-> Hnone].
  exists p3. split; [reflexivity |]. split; [exact Hinv3 |].
  split; [subst p3; simpl in *; lia |].
  destruct r as [row |].
  - destruct len; [| exfalso; destruct Hnone as [Hn _];
                     discriminate (Hn eq_refl)].
    subst p3. unfold unread at 1. simpl. rewrite <- Hun1. lia.
  - destruct len; [destruct Hnone as [_ Hn]; discriminate (Hn eq_refl) |].
    subst s' p3. split; [reflexivity |].
    destruct Hinv3 as (_ & _ & Hsum3 & _).
    unfold unread in Hsum3. simpl in Hsum3. simpl. lia.
Qed.

Lemma parser_reaches_inv (d : option (list ascii)) (hh : bool) p :
  parser_reaches size_bits fopen (csv_parser_init fname d hh) p ->
  line_no_inv fname content p.
Proof.
  intros H. induction H as [| p r p' _ IH Hh | p r p' _ IH Hr].
  - apply line_no_inv_init.
  - apply (csv_parser_header_inv IH Hh).
  - destruct (csv_parser_row_inv IH Hr) as (p1 & E & Hinv & _).
    inversion E; subst. exact Hinv.
Qed.

(** Drawing rows until [csv_parser_row] returns [NULL] ends within one
    call per unread byte and one more, with every line counted. *)
Lemma drain_counts (fuel : nat) :
  forall p, line_no_inv fname content p ->
  length (unread content p) < fuel ->
  drain size_bits fopen fuel (Some p) <> OutOfFuel /\
  forall rows q, drain size_bits fopen fuel (Some p) = Ok (rows, q) ->
    exists p', q = Some p' /\
      line_no p' = N.of_nat (count_lines content).
Proof.
  induction fuel as [| fuel IH]; intros p Hinv Hf; [lia |].
  cbn [drain].
  destruct (csv_parser_row size_bits fopen (Some p)) as [[r q] | |] eqn:Hrow;
    simpl.
  - destruct (csv_parser_row_inv Hinv Hrow) as (p' & -> & Hinv' & _ & Hr).
    destruct r as [row |].
    + destruct (IH p' Hinv' ltac:(lia)) as [Hne Hok].
      destruct (drain size_bits fopen fuel (Some p')) as [[rows q'] | |];
        simpl.
      * split; [discriminate |]. intros rows0 q0 E. inversion E; subst.
        apply (Hok rows q0 eq_refl).
      * split; discriminate.
      * contradiction.
    + split; [discriminate |]. intros rows q E. inversion E; subst.
      exists p'. split; [reflexivity | apply Hr].
  - split; discriminate.
  - exfalso. apply (csv_parser_row_in_budget _ Hrow).
Qed.

End DriverFacts.

(** The scenarios and boundary cases of the specification's section 8
    that concern one line, run on the embedding. *)
Lemma tokenizer_scenarios :
  s_parse_line_to_row
    (QUOTE :: bytes "hello, world" ++ QUOTE :: COMMA :: QUOTE
     :: bytes "she said " ++ QUOTE :: QUOTE :: bytes "hi" ++
     [QUOTE; QUOTE; QUOTE]) COMMA =
    Ok {| fields := [bytes "hello, world";
                     bytes "she said " ++ QUOTE :: bytes "hi" ++ [QUOTE]];
          num_fields := 2 |} /\
  s_parse_line_to_row (bytes "a,b,") COMMA =
    Ok {| fields := [bytes "a"; bytes "b"; []]; num_fields := 3 |} /\
  s_parse_line_to_row (bytes ",a,b") COMMA =
    Ok {| fields := [[]; bytes "a"; bytes "b"]; num_fields := 3 |} /\
  s_parse_line_to_row (bytes ",,,") COMMA =
    Ok {| fields := [[]; []; []; []]; num_fields := 4 |} /\
  s_parse_line_to_row [] COMMA =
    Ok {| fields := [[]]; num_fields := 1 |}.
Proof. repeat split; vm_compute; reflexivity. Qed.

(** An unterminated quoted field: when the line ends in
    [ST_QUOTED_FIELD], what was accumulated since the opening quote is
    pushed as the last field. *)
Lemma unterminated_quote_emitted (line : list ascii) (d : ascii) (s : scan) :
  scan_loop (scan_budget line) d (scan_init line) = Ok s ->
  sc_state s = ST_QUOTED_FIELD ->
  s_parse_line_to_row line d =
  Ok {| fields := sc_fields s ++ [sc_buf s];
        num_fields := length (sc_fields s ++ [sc_buf s]) |}.
Proof.
  intros Hloop Hq.
  pose proof (scan_loop_exit_quoted _ _ (scan_init_wf line) Hloop Hq) as Hwf.
  unfold s_parse_line_to_row, s_parse_line_to_row_fuel.
  rewrite Hloop. simpl. unfold scan_finish.
  rewrite (push_field_ok Hwf). reflexivity.
Qed.

Lemma unterminated_quote_example :
  s_parse_line_to_row (QUOTE :: bytes "abc,def") COMMA =
  Ok {| fields := [bytes "abc,def"]; num_fields := 1 |}.
Proof. reflexivity. Qed.

(** C2: the claim is that every line gives a row with at least one
    field.  The code misses it on the line [1,2,3,4,5,6,7,"8"<CR>]: the
    CR after the closing quote pushes the eighth field without growing
    the array of eight slots, and the push after the loop then stores
    [fields[8]].  The same happens through [csv_parser_row] on a file
    that holds this line without a final LF. *)
Theorem field_count_store_out_of_bounds :
  let line := bytes "1,2,3,4,5,6,7," ++ QUOTE :: bytes "8" ++ [QUOTE; CR] in
  let fopen := fun _ : option (list ascii) => Some line in
  let p := csv_parser_init (Some (bytes "data.csv")) (Some [COMMA]) false in
  s_line_is_skippable line = false /\
  s_parse_line_to_row line COMMA = Undefined /\
  csv_parser_row 64 fopen (Some p) = Undefined.
Proof. repeat split; vm_compute; reflexivity. Qed.

(** C4: the claim is that the tokenizer succeeds on every line.  On the
    CR-terminated record ["a","b","c","d","e","f","g","h"<CR>] the loop
    leaves with [fields_cnt = fields_cap = 8] and the last push is out
    of bounds, so the call has no defined result. *)
Theorem tokenizer_store_out_of_bounds :
  let q := fun c : string => QUOTE :: bytes c ++ [QUOTE] in
  let line := q "a"%string ++ COMMA :: q "b"%string ++ COMMA
              :: q "c"%string ++ COMMA :: q "d"%string ++ COMMA
              :: q "e"%string ++ COMMA :: q "f"%string ++ COMMA
              :: q "g"%string ++ COMMA :: q "h"%string ++ [CR] in
  s_parse_line_to_row line COMMA = Undefined /\
  exists s, scan_loop (scan_budget line) COMMA (scan_init line) = Ok s /\
    length (sc_fields s) = 8 /\ sc_fields_cap s = 8.
Proof.
  split; [vm_compute; reflexivity |].
  eexists. split; [vm_compute; reflexivity |]. split; reflexivity.
Qed.

(** C5: only the first byte of the delimiter configuration is looked
    at.  A null or empty configuration, and a first byte that is LF, CR,
    the double quote or NUL, give [,]; any other first byte is the
    delimiter.  The delimiter of a parser is therefore always valid. *)
Theorem delim_resolution :
  forall (fname : option (list ascii)) (hh : bool),
    delim (csv_parser_init fname None hh) = COMMA /\
    delim (csv_parser_init fname (Some []) hh) = COMMA /\
    (forall c rest rest',
       delim (csv_parser_init fname (Some (c :: rest)) hh) =
       delim (csv_parser_init fname (Some (c :: rest')) hh)) /\
    (forall c rest,
       c = LF \/ c = CR \/ c = QUOTE \/ c = NUL ->
       delim (csv_parser_init fname (Some (c :: rest)) hh) = COMMA) /\
    (forall c rest,
       valid_delim c ->
       delim (csv_parser_init fname (Some (c :: rest)) hh) = c) /\
    (forall d, valid_delim (delim (csv_parser_init fname d hh))).
Proof.
  intros fname hh.
  split; [reflexivity |]. split; [reflexivity |].
  split; [reflexivity |]. split; [| split].
  - intros c rest [H | [H | [H | H]]]; subst c; reflexivity.
  - intros c rest (Hlf & Hcr & Hq & Hnul). simpl.
    destruct (Ascii.eqb_spec c COMMA) as [E | _]; [symmetry; exact E |].
    rewrite (ascii_eqb_false Hnul), (ascii_eqb_false Hlf),
      (ascii_eqb_false Hcr), (ascii_eqb_false Hq). reflexivity.
  - intros [d |]; simpl; [| apply valid_delim_comma].
    destruct (Ascii.eqb_spec (deref d) COMMA); [apply valid_delim_comma |].
    destruct (Ascii.eqb_spec (deref d) NUL); simpl;
      [apply valid_delim_comma |].
    destruct (Ascii.eqb_spec (deref d) LF); simpl;
      [apply valid_delim_comma |].
    destruct (Ascii.eqb_spec (deref d) CR); simpl;
      [apply valid_delim_comma |].
    destruct (Ascii.eqb_spec (deref d) QUOTE); simpl;
      [apply valid_delim_comma |].
    repeat split; assumption.
Qed.

Lemma delim_resolution_witness :
  delim (csv_parser_init None (Some (LF :: bytes ";")) true) = COMMA /\
  delim (csv_parser_init None (Some (bytes ";,")) true) = ";"%char.
Proof.
  destruct (delim_resolution None true) as (_ & _ & _ & Hbad & Hgood & _).
  split.
  - apply Hbad. left. reflexivity.
  - apply Hgood. repeat split; byte_neq.
Defined.

(** C10: with a null parser, [csv_parser_header] and [csv_parser_row]
    return [NULL], whatever [fopen] would do, and leave no parser object
    behind: nothing is read and nothing is changed.  With a null
    argument the two destructors release nothing. *)
Theorem null_arguments_tolerated :
  forall (size_bits : N) (fopen : option (list ascii) -> option (list ascii)),
    csv_parser_header size_bits None = Ok (None, None) /\
    csv_parser_row size_bits fopen None = Ok (None, None) /\
    csv_parser_destroy None = [] /\
    csv_parser_destroy_row None = [].
Proof.
  intros size_bits fopen.
  split; [reflexivity |]. split; [reflexivity |].
  split; reflexivity.
Qed.

(** C1: the claim is that [csv_parser_header] opens the input when it
    has to.  The code does not: on a parser that has a header to read
    and whose stream is still null, it hands the null stream to
    [getline]; only [csv_parser_row] opens the file. *)
Theorem header_before_open_undefined :
  forall (size_bits : N) (p : csv_parser_td),
    fp p = None -> has_header p = true -> header p = None ->
    csv_parser_header size_bits (Some p) = Undefined.
Proof.
  intros size_bits p Hfp Hh Hhdr. unfold csv_parser_header.
  rewrite Hh, Hhdr, Hfp. reflexivity.
Qed.

Lemma header_before_open_undefined_witness :
  csv_parser_header 64
    (Some (csv_parser_init (Some (bytes "data.csv")) (Some [COMMA]) true))
  = Undefined.
Proof.
  apply header_before_open_undefined; reflexivity.
Defined.

(** What the claim of C1 expects is what the code does once
    [csv_parser_row] has opened the file: the header is the first line
    that is not skippable. *)
Lemma header_after_row_example :
  let content := bytes "# people" ++ LF :: bytes "name,age" ++ LF
                 :: bytes "Alice,30" ++ [LF] in
  let fopen := fun _ : option (list ascii) => Some content in
  let p := csv_parser_init (Some (bytes "data.csv")) (Some [COMMA]) true in
  exists p',
    csv_parser_row 64 fopen (Some p) =
      Ok (Some {| fields := [bytes "Alice"; bytes "30"]; num_fields := 2 |},
          Some p') /\
    csv_parser_header 64 (Some p') =
      Ok (Some {| fields := [bytes "name"; bytes "age"]; num_fields := 2 |},
          Some p') /\
    line_no p' = 3%N.
Proof.
  eexists. split; [vm_compute; reflexivity |].
  split; vm_compute; reflexivity.
Qed.

(** C7: [line_no] is 0 after [csv_parser_init]; a call of the line
    reader adds to it the number of physical lines it takes from the
    stream, skipped ones included; on every parser reached by calls of
    [csv_parser_header] and [csv_parser_row], [line_no] is the number of
    physical lines read so far and no call decreases it; and when
    [csv_parser_row] returns [NULL], as it does at the end of the
    draining loop, [line_no] is the number of physical lines of the
    file.  The file is one that [fopen] opens and whose line count fits
    in [size_t]. *)
Theorem line_no_counts_physical_lines :
  forall (size_bits : N) (fopen : option (list ascii) -> option (list ascii))
         (fname d : option (list ascii)) (hh : bool) (content : list ascii),
    fopen fname = Some content ->
    (N.of_nat (count_lines content) < 2 ^ size_bits)%N ->
    let p0 := csv_parser_init fname d hh in
    line_no p0 = 0%N /\
    (forall s ln r s' ln',
       (ln + N.of_nat (count_lines s) < 2 ^ size_bits)%N ->
       s_read_next_non_skippable_line size_bits (Some s) ln
         = Ok (r, s', ln') ->
       count_lines s' <= count_lines s /\
       ln' = (ln + N.of_nat (count_lines s - count_lines s'))%N) /\
    (forall p,
       parser_reaches size_bits fopen p0 p ->
       (line_no p + N.of_nat (count_lines (unread content p))
        = N.of_nat (count_lines content))%N /\
       (forall r p',
          csv_parser_header size_bits (Some p) = Ok (r, Some p') \/
          csv_parser_row size_bits fopen (Some p) = Ok (r, Some p') ->
          (line_no p <= line_no p')%N) /\
       (forall p',
          csv_parser_row size_bits fopen (Some p) = Ok (None, Some p') ->
          line_no p' = N.of_nat (count_lines content))) /\
    (forall fuel,
       length content < fuel ->
       drain size_bits fopen fuel (Some p0) <> OutOfFuel /\
       forall rows q,
         drain size_bits fopen fuel (Some p0) = Ok (rows, q) ->
         exists p', q = Some p' /\
           line_no p' = N.of_nat (count_lines content)).
Proof.
  intros size_bits fopen fname d hh content Hopen Hfit p0.
  split; [reflexivity |]. split; [| split].
  - intros s ln r s' ln' Hs H.
    unfold s_read_next_non_skippable_line in H.
    apply read_loop_counts in H; [| exact Hs]. lia.
  - intros p Hreach.
    assert (Hinv : line_no_inv fname content p)
      by (eapply parser_reaches_inv; eassumption).
    split; [apply Hinv |]. split.
    + intros r p' [H | H].
      * eapply csv_parser_header_inv; eassumption.
      * edestruct csv_parser_row_inv as (p1 & E & _ & Hmono & _);
          [exact Hopen | exact Hfit | exact Hinv | exact H |].
        inversion E; subst. exact Hmono.
    + intros p' H.
      destruct (@csv_parser_row_inv size_bits fopen fname content
                  Hopen Hfit p None (Some p') Hinv H)
        as (p1 & E & _ & _ & _ & Hln).
      inversion E; subst. exact Hln.
  - intros fuel Hfuel.
    eapply drain_counts; [exact Hopen | exact Hfit | |].
    + apply line_no_inv_init.
    + unfold unread. simpl. exact Hfuel.
Qed.

Lemma line_no_counts_physical_lines_witness :
  let content :=
    bytes "# comment" ++ CR :: LF :: CR :: LF :: bytes "x,y" ++ CR :: LF
    :: bytes "1,2" ++ CR :: LF :: bytes "# trailing" ++ CR :: LF
    :: bytes "3,4" ++ [CR; LF] in
  let fopen := fun _ : option (list ascii) => Some content in
  let p0 := csv_parser_init (Some (bytes "data.csv")) (Some [COMMA]) true in
  exists rows p',
    drain 64 fopen (S (length content)) (Some p0) = Ok (rows, Some p') /\
    line_no p' = 6%N.
Proof.
  intros content fopen p0.
  destruct (@line_no_counts_physical_lines 64 fopen
              (Some (bytes "data.csv")) (Some [COMMA]) true content
              eq_refl eq_refl) as (_ & _ & _ & H).
  destruct (H (S (length content)) (Nat.lt_succ_diag_r _)) as [Hne Hok].
  fold p0 in Hne, Hok.
  destruct (drain 64 fopen (S (length content)) (Some p0))
    as [[rows q] | |] eqn:E.
  - destruct (Hok rows q eq_refl) as [p' [Hq Hln]].
    exists rows, p'. rewrite Hq. split; [reflexivity | exact Hln].
  - vm_compute in E. discriminate E.
  - contradiction.
Defined.

(** * Further properties of the tokenizer *)

Lemma scan_loop_unique (d : ascii) (s r1 r2 : scan) (fuel1 fuel2 : nat) :
  scan_loop fuel1 d s = Ok r1 -> scan_loop fuel2 d s = Ok r2 -> r1 = r2.
Proof.
  intros H1 H2.
  assert (E1 : scan_loop (Nat.max fuel1 fuel2) d s = Ok r1)
    by (eapply scan_loop_more_fuel; [exact H1 | lia]).
  assert (E2 : scan_loop (Nat.max fuel1 fuel2) d s = Ok r2)
    by (eapply scan_loop_more_fuel; [exact H2 | lia]).
  congruence.
Qed.

Lemma scan_reaches_trans (d : ascii) (s1 s2 s3 : scan) :
  scan_reaches d s1 s2 -> scan_reaches d s2 s3 -> scan_reaches d s1 s3.
Proof.
  intros H12 H23. induction H23 as [| s s' _ IH Hstep]; [exact H12 |].
  eapply scan_reaches_again; eassumption.
Qed.

Lemma scan_reaches_one (d : ascii) (s1 s2 : scan) :
  scan_step d s1 = Ok (Again s2) -> scan_reaches d s1 s2.
Proof.
  intros H. eapply scan_reaches_again; [apply scan_reaches_here | exact H].
Qed.

(** The loop started in a state gives what it gives from any state it
    reaches. *)
Lemma scan_reaches_loop (d : ascii) (s s' r : scan) :
  scan_reaches d s s' ->
  forall fuel, scan_loop fuel d s' = Ok r ->
  exists fuel', scan_loop fuel' d s = Ok r.
Proof.
  intros H. induction H as [| s1 s2 _ IH Hstep]; intros fuel Hloop.
  - eauto.
  - apply (IH (S fuel)). simpl. rewrite Hstep. simpl. exact Hloop.
Qed.

(** The result of the tokenizer, read off a state the scan reaches and
    leaves the loop from. *)
Lemma tokenizer_by_reach (line : list ascii) (d : ascii) (s s' : scan) :
  scan_reaches d (scan_init line) s ->
  scan_step d s = Ok (Break s') ->
  s_parse_line_to_row line d = scan_finish s'.
Proof.
  intros Hreach Hstep.
  assert (H1 : scan_loop 1 d s = Ok s') by (simpl; rewrite Hstep; reflexivity).
  destruct (scan_reaches_loop Hreach _ H1) as [fuel Hfuel].
  destruct (scan_loop_ends d (scan_init_wf line) (scan_init_measure line))
    as [s0 Hs0].
  assert (s0 = s') by (eapply scan_loop_unique; eassumption). subst s0.
  unfold s_parse_line_to_row, s_parse_line_to_row_fuel.
  rewrite Hs0. reflexivity.
Qed.

(** Without a CR or LF ahead, the loop is left with a free slot in
    [fields]. *)
Lemma scan_loop_exit_no_eol (d : ascii) (fuel : nat) :
  forall s s', scan_wf s ->
  (forall c, In c (sc_p s) -> c <> CR /\ c <> LF) ->
  scan_loop fuel d s = Ok s' -> scan_wf s'.
Proof.
  induction fuel as [| fuel IH]; intros s s' Hwf Hall H; [discriminate |].
  simpl in H. apply bind_ok in H. destruct H as [f [Hstep' H]].
  destruct f as [s1 | s1].
  - destruct (scan_step_again _ Hwf Hstep') as [Hwf1 _].
    apply (IH s1 s' Hwf1); [| exact H].
    intros c Hin. apply Hall.
    destruct (scan_step_cursor _ Hwf Hstep') as [[_ E] | (_ & _ & E)];
      rewrite E in Hin; [| exact Hin].
    destruct (sc_p s); [contradiction | right; exact Hin].
  - inversion H; subst. clear H.
    scan_cases d s Hwf; rewrite Hstep' in Hstep; inversion Hstep; subst;
      try assumption.
    exfalso. destruct (Hall c (or_introl eq_refl)) as [Hcr Hlf].
    rewrite (ascii_eqb_false Hcr), (ascii_eqb_false Hlf) in Hnl.
    discriminate.
Qed.

(** X1: on a line without CR and LF bytes, which is what the line
    reader hands over for a file with LF or CRLF line ends and no stray
    CR, every store of the tokenizer is in bounds and the call returns
    a row; the row has at least one field and [num_fields] is the
    number of fields stored. *)
Theorem tokenizer_defined_without_eol :
  forall (line : list ascii) (d : ascii),
    (forall c, In c line -> c <> CR /\ c <> LF) ->
    exists row,
      s_parse_line_to_row line d = Ok row /\
      1 <= num_fields row /\
      num_fields row = length (fields row).
Proof.
  intros line d Hall.
  destruct (scan_loop_ends d (scan_init_wf line) (scan_init_measure line))
    as [s Hs].
  pose proof (scan_loop_exit_no_eol _ _ (scan_init_wf line) Hall Hs) as Hwf.
  unfold s_parse_line_to_row, s_parse_line_to_row_fuel.
  rewrite Hs. simpl. unfold scan_finish.
  rewrite (push_field_ok Hwf). simpl.
  eexists. split; [reflexivity |]. simpl.
  rewrite length_app. simpl. lia.
Qed.

Lemma tokenizer_defined_without_eol_witness :
  exists row,
    s_parse_line_to_row (bytes "1,2,3,4,5,6,7,8,9") COMMA = Ok row /\
    1 <= num_fields row /\ num_fields row = length (fields row).
Proof.
  apply tokenizer_defined_without_eol.
  simpl. intros c H.
  repeat (destruct H as [H | H]; [subst c; split; byte_neq |]).
  contradiction.
Defined.

Lemma scan_from_line_init (line : list ascii) :
  scan_from_line line (scan_init line).
Proof.
  unfold scan_from_line, scan_init; simpl.
  repeat split; [constructor | constructor | apply incl_refl].
Qed.

Lemma scan_from_line_step (line : list ascii) (d : ascii) (s : scan) :
  scan_wf s -> scan_from_line line s ->
  forall f, scan_step d s = Ok f ->
  match f with
  | Again s' => scan_from_line line s'
  | Break s' => scan_from_line line s'
  end.
Proof.
  intros Hwf Hfrom f0 Hstep'.
  pose proof Hfrom as (Hfl & Hbl & Hpl).
  assert (Hpush : Forall (Forall (fun c => In c line /\ c <> NUL))
                    (sc_fields s ++ [sc_buf s])).
  { apply Forall_app. split; [exact Hfl |]. constructor; [exact Hbl |].
    constructor. }
  assert (Happ : forall c, In c line -> c <> NUL ->
            Forall (fun c => In c line /\ c <> NUL) (sc_buf s ++ [c])).
  { intros c Hc Hn. apply Forall_app. split; [exact Hbl |].
    constructor; [split; assumption | constructor]. }
  assert (Htl : forall c rest, sc_p s = c :: rest ->
            In c line /\ incl rest line).
  { intros c rest E. rewrite E in Hpl. split.
    - apply Hpl. left. reflexivity.
    - intros x Hx. apply Hpl. right. exact Hx. }
  scan_cases d s Hwf; rewrite Hstep' in Hstep; inversion Hstep; subst f0;
    try exact Hfrom;
    destruct (Htl _ _ eq_refl) as [Hc Hrest];
    apply Ascii.eqb_neq in Hnul;
    unfold scan_from_line;
    repeat match goal with
           | E : sc_fields _ = _ |- _ => rewrite E
           | E : sc_buf _ = _ |- _ => rewrite E
           | E : sc_p _ = _ |- _ => rewrite E
           end;
    (split; [| split]);
    try assumption; try (constructor; fail);
    try (apply Happ; assumption).
  apply Ascii.eqb_eq in Hq. subst c. apply Happ; assumption.
Qed.

Lemma scan_from_line_loop (line : list ascii) (d : ascii) (fuel : nat) :
  forall s s', scan_wf s -> scan_from_line line s ->
  scan_loop fuel d s = Ok s' -> scan_from_line line s'.
Proof.
  induction fuel as [| fuel IH]; intros s s' Hwf Hfrom H; [discriminate |].
  simpl in H. apply bind_ok in H. destruct H as [f [Hstep H]].
  pose proof (scan_from_line_step d Hwf Hfrom Hstep) as Hnext.
  destruct f as [s1 | s1].
  - destruct (scan_step_again _ Hwf Hstep) as [Hwf1 _]. eauto.
  - inversion H; subst. exact Hnext.
Qed.

(** X2: the tokenizer invents nothing: every byte of every field of a
    row it returns is a byte of the line, and no field holds a NUL
    byte; [num_fields] is the number of fields stored, so the [i]
    below [num_fields] all index a field. *)
Theorem fields_made_of_line_bytes :
  forall (line : list ascii) (d : ascii) (row : csv_row_td),
    s_parse_line_to_row line d = Ok row ->
    num_fields row = length (fields row) /\
    forall f c, In f (fields row) -> In c f -> In c line /\ c <> NUL.
Proof.
  intros line d row H.
  unfold s_parse_line_to_row, s_parse_line_to_row_fuel in H.
  apply bind_ok in H. destruct H as [s [Hloop Hfin]].
  pose proof (scan_from_line_loop d _ (scan_init_wf line)
                (scan_from_line_init line) Hloop) as (Hf & Hb & _).
  unfold scan_finish in Hfin. apply bind_ok in Hfin.
  destruct Hfin as [s' [Hpush Hrow]].
  unfold push_field in Hpush. apply bind_ok in Hpush.
  destruct Hpush as [[] [_ Hstore]].
  unfold store in Hstore.
  destruct (in_bounds (length (sc_fields s)) (sc_fields_cap s));
    [| discriminate].
  inversion Hstore; subst s'. inversion Hrow; subst row. simpl.
  split; [reflexivity |].
  intros f c Hinf Hinc. apply in_app_or in Hinf.
  destruct Hinf as [Hinf | [E | []]].
  - rewrite Forall_forall in Hf. specialize (Hf f Hinf).
    rewrite Forall_forall in Hf. apply Hf. exact Hinc.
  - subst f. rewrite Forall_forall in Hb. apply Hb. exact Hinc.
Qed.

Lemma fields_made_of_line_bytes_witness :
  let line := QUOTE :: bytes "a,b" ++ QUOTE :: bytes ",c" in
  let row := {| fields := [bytes "a,b"; bytes "c"]; num_fields := 2 |} in
  num_fields row = length (fields row) /\
  forall f c, In f (fields row) -> In c f -> In c line /\ c <> NUL.
Proof.
  intros line row.
  apply (@fields_made_of_line_bytes line COMMA row).
  vm_compute. reflexivity.
Defined.

(** The scan of the inside of a quoted field, up to the quote that
    closes it. *)
Lemma scan_quoted_body (d : ascii) (f : list ascii) :
  ~ In NUL f ->
  forall (s : scan) (rest : list ascii),
    scan_wf s -> sc_state s = ST_QUOTED_FIELD ->
    sc_p s = escape_quotes f ++ QUOTE :: rest ->
    exists s',
      scan_reaches d s s' /\ scan_wf s' /\
      scan_is s' ST_QUOTE_IN_QUOTED (sc_fields s) (sc_buf s ++ f) rest.
Proof.
  induction f as [| c f IH]; intros Hnul s rest Hwf Hst Hcur.
  - simpl in Hcur.
    destruct (scan_step_spec d Hwf) as [fl [Hstep Hspec]].
    rewrite Hcur, Hst in Hspec. simpl in Hspec.
    destruct Hspec as [s1 [-> [Hwf1 His]]].
    exists s1. split; [apply scan_reaches_one; exact Hstep |].
    split; [exact Hwf1 |]. rewrite app_nil_r. exact His.
  - assert (Hc : c <> NUL) by (intros E; apply Hnul; left; auto).
    assert (Hf : ~ In NUL f) by (intros E; apply Hnul; right; exact E).
    simpl in Hcur.
    destruct (scan_step_spec d Hwf) as [fl [Hstep Hspec]].
    destruct (Ascii.eqb c QUOTE) eqn:Hq.
    + (* a quote of the field, written twice *)
      apply Ascii.eqb_eq in Hq. subst c. simpl in Hcur.
      rewrite Hcur, Hst in Hspec. simpl in Hspec.
      destruct Hspec as [s1 [-> [Hwf1 (Hst1 & Hf1 & Hb1 & Hp1)]]].
      destruct (scan_step_spec d Hwf1) as [fl [Hstep1 Hspec1]].
      rewrite Hp1, Hst1 in Hspec1. simpl in Hspec1.
      destruct Hspec1 as [s2 [-> [Hwf2 (Hst2 & Hf2 & Hb2 & Hp2)]]].
      destruct (IH Hf s2 rest Hwf2 Hst2 Hp2) as [s' (Hr & Hwf' & His')].
      exists s'. split; [| split; [exact Hwf' |]].
      * eapply scan_reaches_trans; [| exact Hr].
        eapply scan_reaches_trans; apply scan_reaches_one; eassumption.
      * rewrite Hf2, Hb2, Hf1, Hb1, <- app_assoc in His'. exact His'.
    + simpl in Hcur. rewrite Hcur, Hst in Hspec.
      rewrite (ascii_eqb_false Hc), Hq in Hspec.
      destruct Hspec as [s1 [-> [Hwf1 (Hst1 & Hf1 & Hb1 & Hp1)]]].
      destruct (IH Hf s1 rest Hwf1 Hst1 Hp1) as [s' (Hr & Hwf' & His')].
      exists s'. split; [| split; [exact Hwf' |]].
      * eapply scan_reaches_trans; [| exact Hr].
        apply scan_reaches_one. exact Hstep.
      * rewrite Hf1, Hb1, <- app_assoc in His'. exact His'.
Qed.

(** The scan of quoted fields with the delimiter between them. *)
Lemma scan_quoted_fields (d : ascii) (fs : list (list ascii)) :
  valid_delim d -> fs <> [] ->
  (forall f, In f fs -> ~ In NUL f) ->
  forall s : scan,
    scan_wf s -> sc_state s = ST_FIELD -> sc_buf s = [] ->
    sc_p s = join_fields d (map quote_field fs) ->
    exists s',
      scan_reaches d s s' /\ scan_wf s' /\
      sc_state s' = ST_QUOTE_IN_QUOTED /\ sc_p s' = [] /\
      sc_fields s' ++ [sc_buf s'] = sc_fields s ++ fs.
Proof.
  intros (Hdlf & Hdcr & Hdq & Hdnul).
  induction fs as [| f fs IH]; intros Hne Hall s Hwf Hst Hbuf Hcur;
    [contradiction |].
  assert (Hf : ~ In NUL f) by (apply Hall; left; reflexivity).
  assert (Hopen : forall rest, sc_p s = quote_field f ++ rest ->
            exists s', scan_reaches d s s' /\ scan_wf s' /\
              scan_is s' ST_QUOTE_IN_QUOTED (sc_fields s) f rest).
  { intros rest E. unfold quote_field in E. simpl in E.
    rewrite <- app_assoc in E. simpl in E.
    destruct (scan_step_spec d Hwf) as [fl [Hstep Hspec]].
    assert (Hqd : Ascii.eqb QUOTE d = false)
      by (apply Ascii.eqb_neq; congruence).
    rewrite E, Hst, Hbuf in Hspec. rewrite Hqd in Hspec.
    change (Ascii.eqb QUOTE NUL) with false in Hspec.
    rewrite Ascii.eqb_refl in Hspec.
    destruct Hspec as [s1 [-> [Hwf1 (Hst1 & Hf1 & Hb1 & Hp1)]]].
    destruct (@scan_quoted_body d f Hf s1 rest Hwf1 Hst1 Hp1)
      as [s' (Hr & Hwf' & His')].
    exists s'. split; [| split; [exact Hwf' |]].
    - eapply scan_reaches_trans; [apply scan_reaches_one; exact Hstep |].
      exact Hr.
    - rewrite Hf1, Hb1 in His'. exact His'. }
  destruct fs as [| f2 fs].
  - simpl in Hcur.
    destruct (Hopen []) as [s' (Hr & Hwf' & Hst' & Hf' & Hb' & Hp')];
      [rewrite app_nil_r; exact Hcur |].
    exists s'. split; [exact Hr |]. split; [exact Hwf' |].
    split; [exact Hst' |]. split; [exact Hp' |].
    rewrite Hf', Hb'. reflexivity.
  - cbn [map join_fields] in Hcur.
    destruct (Hopen _ Hcur) as [s1 (Hr1 & Hwf1 & Hst1 & Hf1 & Hb1 & Hp1)].
    destruct (scan_step_spec d Hwf1) as [fl [Hstep Hspec]].
    rewrite Hp1, Hst1 in Hspec.
    rewrite (ascii_eqb_false Hdnul), (ascii_eqb_false Hdq),
      Ascii.eqb_refl in Hspec.
    destruct Hspec as [s2 [-> [Hwf2 (Hst2 & Hf2 & Hb2 & Hp2)]]].
    destruct (IH ltac:(discriminate)
                 ltac:(intros g Hg; apply Hall; right; exact Hg)
                 s2 Hwf2 Hst2 Hb2 Hp2)
      as [s' (Hr & Hwf' & Hst' & Hp' & Hres)].
    exists s'. split; [| split; [exact Hwf' |]].
    + eapply scan_reaches_trans; [exact Hr1 |].
      eapply scan_reaches_trans; [apply scan_reaches_one; exact Hstep |].
      exact Hr.
    + split; [exact Hst' |]. split; [exact Hp' |].
      rewrite Hres, Hf2, Hf1, Hb1, <- app_assoc. reflexivity.
Qed.

(** X3: quoting round trip.  Fields written between double quotes, their
    own double quotes doubled, and joined by a valid delimiter are read
    back exactly: any byte but NUL may occur in them, the delimiter, CR
    and LF included. *)
Theorem quoted_fields_round_trip :
  forall (d : ascii) (fs : list (list ascii)),
    valid_delim d -> fs <> [] ->
    (forall f, In f fs -> ~ In NUL f) ->
    s_parse_line_to_row (join_fields d (map quote_field fs)) d =
    Ok {| fields := fs; num_fields := length fs |}.
Proof.
  intros d fs Hd Hne Hall.
  set (line := join_fields d (map quote_field fs)).
  destruct (@scan_quoted_fields d fs Hd Hne Hall (scan_init line)
              (scan_init_wf line) eq_refl eq_refl eq_refl)
    as [s (Hr & Hwf & Hst & Hp & Hres)].
  assert (Hstep : scan_step d s = Ok (Break s))
    by (unfold scan_step; rewrite Hp; reflexivity).
  rewrite (tokenizer_by_reach Hr Hstep).
  unfold scan_finish. rewrite (push_field_ok Hwf). simpl.
  rewrite Hres. reflexivity.
Qed.

Lemma quoted_fields_round_trip_witness :
  s_parse_line_to_row
    (join_fields COMMA
       (map quote_field [bytes "a,b"; QUOTE :: bytes "hi" ++ [QUOTE; LF]; []]))
    COMMA =
  Ok {| fields := [bytes "a,b"; QUOTE :: bytes "hi" ++ [QUOTE; LF]; []];
        num_fields := 3 |}.
Proof.
  apply (@quoted_fields_round_trip COMMA
           [bytes "a,b"; QUOTE :: bytes "hi" ++ [QUOTE; LF]; []]
           valid_delim_comma).
  - discriminate.
  - simpl. intros f [H | [H | [H | []]]]; subst f; simpl; intros Hin;
      repeat (destruct Hin as [Hin | Hin]; [discriminate Hin |]);
      exact Hin.
Defined.

(** The scan of unquoted fields up to the end of the line or to the
    byte that ends the scan. *)
Lemma scan_loop_unquoted_until (d : ascii) (l : list ascii) :
  valid_delim d ->
  forall (tail : list ascii) (s : scan) (fuel : nat),
    scan_wf s -> sc_state s = ST_FIELD -> sc_p s = l ++ tail ->
    (forall c, In c l -> plain_byte c) ->
    (tail = [] \/
     exists c r, tail = c :: r /\ (c = CR \/ c = LF \/ c = NUL)) ->
    length l < fuel ->
    exists s', scan_loop fuel d s = Ok s' /\ scan_wf s' /\
      sc_fields s' ++ [sc_buf s'] =
      sc_fields s
      ++ (sc_buf s ++ hd [] (naive_split d l)) :: tl (naive_split d l).
Proof.
  intros (Hdlf & Hdcr & Hdq & Hdnul).
  induction l as [| c l IH]; intros tail s fuel Hwf Hst Hcur Hall Htail Hfuel;
    (destruct fuel as [| fuel]; [simpl in Hfuel; lia |]).
  - simpl in Hcur.
    assert (Hbreak : scan_step d s = Ok (Break s)).
    { destruct (scan_step_spec d Hwf) as [f [Hstep Hspec]].
      rewrite Hcur, Hst in Hspec.
      destruct Htail as [-> | [c [r [-> Hc]]]]; [congruence |].
      destruct Hc as [-> | [-> | ->]].
      - rewrite (ascii_eqb_false (not_eq_sym Hdcr)) in Hspec.
        simpl in Hspec. congruence.
      - rewrite (ascii_eqb_false (not_eq_sym Hdlf)) in Hspec.
        simpl in Hspec. congruence.
      - simpl in Hspec. congruence. }
    simpl. rewrite Hbreak. simpl.
    exists s. rewrite app_nil_r. auto.
  - destruct (Hall c (or_introl eq_refl)) as (Hq & Hcr & Hlf & Hnul).
    assert (Hall' : forall c', In c' l -> plain_byte c')
      by (intros c' Hin; apply Hall; right; exact Hin).
    simpl in Hfuel. simpl in Hcur.
    destruct (scan_step_spec d Hwf) as [f [Hstep Hspec]].
    rewrite Hcur, Hst in Hspec.
    rewrite (ascii_eqb_false Hnul), (ascii_eqb_false Hq),
      (ascii_eqb_false Hcr), (ascii_eqb_false Hlf) in Hspec.
    simpl in Hspec. cbn [scan_loop]. rewrite Hstep. simpl.
    destruct (Ascii.eqb c d) eqn:Hd;
      destruct Hspec as [s1 [-> [Hwf1 (Hst1 & Hf1 & Hb1 & Hp1)]]];
      destruct (IH tail s1 fuel Hwf1 Hst1 Hp1 Hall' Htail ltac:(lia))
        as [s' (Hloop & Hwf' & Hres)];
      exists s'; (split; [exact Hloop |]); (split; [exact Hwf' |]);
      rewrite Hres, Hf1, Hb1.
    + cbn [naive_split]. rewrite ?Hd. cbn [hd tl].
      rewrite <- !app_assoc, app_nil_r. cbn [app].
      rewrite <- naive_split_cons. reflexivity.
    + cbn [naive_split]. rewrite ?Hd.
      destruct (naive_split d l) as [| f0 fs]; cbn [hd tl];
        rewrite <- !app_assoc; reflexivity.
Qed.

Lemma tokenizer_unquoted_until (d : ascii) (l tail : list ascii) :
  valid_delim d ->
  (forall c, In c l -> plain_byte c) ->
  (tail = [] \/
   exists c r, tail = c :: r /\ (c = CR \/ c = LF \/ c = NUL)) ->
  s_parse_line_to_row (l ++ tail) d =
  Ok {| fields := naive_split d l;
        num_fields := length (naive_split d l) |}.
Proof.
  intros Hd Hall Htail.
  destruct (@scan_loop_unquoted_until d l Hd tail (scan_init (l ++ tail))
              (scan_budget (l ++ tail)) (scan_init_wf _) eq_refl eq_refl
              Hall Htail)
    as [s (Hloop & Hwf & Hres)].
  { unfold scan_budget. rewrite length_app. lia. }
  unfold s_parse_line_to_row, s_parse_line_to_row_fuel.
  rewrite Hloop. simpl. unfold scan_finish.
  rewrite (push_field_ok Hwf). simpl.
  rewrite Hres. unfold scan_init. cbn [sc_fields sc_buf app].
  rewrite <- naive_split_cons. reflexivity.
Qed.

(** X4: outside quotes the first CR or LF ends the row.  For unquoted
    fields followed by a CR or an LF, the row is the one of the bytes
    before it; whatever follows on the line is dropped without notice,
    as are the bytes after a bare CR in a line the reader hands over. *)
Theorem unquoted_scan_stops_at_eol :
  forall (d : ascii) (l rest : list ascii) (c : ascii),
    valid_delim d ->
    (forall b, In b l -> plain_byte b) ->
    c = CR \/ c = LF ->
    s_parse_line_to_row (l ++ c :: rest) d =
    Ok {| fields := naive_split d l;
          num_fields := length (naive_split d l) |} /\
    s_parse_line_to_row (l ++ c :: rest) d = s_parse_line_to_row l d.
Proof.
  intros d l rest c Hd Hall Hc.
  assert (H1 : s_parse_line_to_row (l ++ c :: rest) d =
               Ok {| fields := naive_split d l;
                     num_fields := length (naive_split d l) |}).
  { apply tokenizer_unquoted_until; [exact Hd | exact Hall |].
    right. exists c, rest. split; [reflexivity | tauto]. }
  split; [exact H1 |]. rewrite H1.
  rewrite <- (app_nil_r l) at 3. symmetry.
  apply tokenizer_unquoted_until; [exact Hd | exact Hall | left; reflexivity].
Qed.

Lemma plain_bytes_of_list (l : list ascii) :
  forallb (fun c => negb (Ascii.eqb c QUOTE || Ascii.eqb c CR
                          || Ascii.eqb c LF || Ascii.eqb c NUL)) l = true ->
  forall b, In b l -> plain_byte b.
Proof.
  intros H b Hin. rewrite forallb_forall in H. specialize (H b Hin).
  apply negb_true_iff in H.
  repeat (apply orb_false_iff in H; destruct H as [H ?]).
  repeat split; apply Ascii.eqb_neq; assumption.
Qed.

Lemma unquoted_scan_stops_at_eol_witness :
  s_parse_line_to_row (bytes "a,b" ++ CR :: bytes "c,d") COMMA =
  Ok {| fields := [bytes "a"; bytes "b"]; num_fields := 2 |}.
Proof.
  apply (@unquoted_scan_stops_at_eol COMMA (bytes "a,b") (bytes "c,d") CR
           valid_delim_comma).
  - apply plain_bytes_of_list. reflexivity.
  - left. reflexivity.
Defined.

Lemma naive_split_no_delim (d : ascii) (f : list ascii) :
  ~ In d f -> naive_split d f = [f].
Proof.
  induction f as [| c f IH]; intros H; [reflexivity |].
  simpl. rewrite ascii_eqb_false by (intros E; apply H; left; auto).
  rewrite IH by (intros E; apply H; right; exact E). reflexivity.
Qed.

Lemma naive_split_app_delim (d : ascii) (f rest : list ascii) :
  ~ In d f -> naive_split d (f ++ d :: rest) = f :: naive_split d rest.
Proof.
  induction f as [| c f IH]; intros H; simpl.
  - rewrite Ascii.eqb_refl. reflexivity.
  - rewrite ascii_eqb_false by (intros E; apply H; left; auto).
    rewrite IH by (intros E; apply H; right; exact E). reflexivity.
Qed.

Lemma naive_split_join (d : ascii) (fs : list (list ascii)) :
  fs <> [] -> (forall f, In f fs -> ~ In d f) ->
  naive_split d (join_fields d fs) = fs.
Proof.
  induction fs as [| f fs IH]; intros Hne Hall; [contradiction |].
  destruct fs as [| f2 fs].
  - simpl. apply naive_split_no_delim. apply Hall. left. reflexivity.
  - change (join_fields d (f :: f2 :: fs))
      with (f ++ d :: join_fields d (f2 :: fs)).
    rewrite naive_split_app_delim by (apply Hall; left; reflexivity).
    rewrite IH; [reflexivity | discriminate |].
    intros g Hg. apply Hall. right. exact Hg.
Qed.

Lemma join_naive_split (d : ascii) (l : list ascii) :
  join_fields d (naive_split d l) = l.
Proof.
  induction l as [| c l IH]; [reflexivity |].
  cbn [naive_split].
  destruct (naive_split d l) as [| f fs] eqn:E.
  { rewrite naive_split_cons in E. discriminate. }
  destruct (Ascii.eqb_spec c d) as [-> | Hne].
  - change (join_fields d ([] :: f :: fs))
      with ([] ++ d :: join_fields d (f :: fs)).
    rewrite IH. reflexivity.
  - destruct fs as [| f2 fs]; cbn [join_fields] in *.
    + rewrite IH. reflexivity.
    + simpl. rewrite IH. reflexivity.
Qed.

Lemma naive_split_length (d : ascii) (l : list ascii) :
  length (naive_split d l) = S (count_occ ascii_dec l d).
Proof.
  induction l as [| c l IH]; [reflexivity |].
  simpl. destruct (Ascii.eqb_spec c d) as [-> | Hne].
  - simpl. rewrite IH. destruct (ascii_dec d d); [reflexivity | contradiction].
  - destruct (ascii_dec c d); [contradiction |].
    rewrite <- IH. rewrite (naive_split_cons d l). reflexivity.
Qed.

(** X5: on a line of plain bytes (no double quote, CR, LF or NUL) the
    tokenizer loses nothing: the fields of the row, joined by the
    delimiter, are the line again, and there is one field more than
    there are delimiter bytes in the line. *)
Theorem unquoted_row_rebuilds_line :
  forall (d : ascii) (l : list ascii),
    valid_delim d ->
    (forall b, In b l -> plain_byte b) ->
    exists row,
      s_parse_line_to_row l d = Ok row /\
      join_fields d (fields row) = l /\
      num_fields row = S (count_occ ascii_dec l d).
Proof.
  intros d l Hd Hall.
  eexists. split.
  - rewrite <- (app_nil_r l) at 1.
    apply tokenizer_unquoted_until; [exact Hd | exact Hall | left; reflexivity].
  - simpl. split; [apply join_naive_split | apply naive_split_length].
Qed.

Lemma unquoted_row_rebuilds_line_witness :
  exists row,
    s_parse_line_to_row (bytes ",a,,b") COMMA = Ok row /\
    join_fields COMMA (fields row) = bytes ",a,,b" /\
    num_fields row = S (count_occ ascii_dec (bytes ",a,,b") COMMA).
Proof.
  apply (@unquoted_row_rebuilds_line COMMA (bytes ",a,,b") valid_delim_comma).
  apply plain_bytes_of_list. reflexivity.
Defined.

(** X6: unquoted round trip.  Fields of plain bytes that do not hold the
    delimiter, joined by the delimiter, are read back exactly, empty
    fields included. *)
Theorem unquoted_fields_round_trip :
  forall (d : ascii) (fs : list (list ascii)),
    valid_delim d -> fs <> [] ->
    (forall f, In f fs -> ~ In d f /\ forall b, In b f -> plain_byte b) ->
    s_parse_line_to_row (join_fields d fs) d =
    Ok {| fields := fs; num_fields := length fs |}.
Proof.
  intros d fs Hd Hne Hall.
  assert (Hplain : forall b, In b (join_fields d fs) -> plain_byte b).
  { clear Hne. induction fs as [| f fs IH]; [intros b [] |].
    assert (Hf : forall b, In b f -> plain_byte b)
      by (apply Hall; left; reflexivity).
    destruct fs as [| f2 fs]; [exact Hf |].
    change (join_fields d (f :: f2 :: fs))
      with (f ++ d :: join_fields d (f2 :: fs)).
    intros b Hin. apply in_app_or in Hin.
    destruct Hin as [Hin | [<- | Hin]].
    - apply Hf. exact Hin.
    - destruct Hd as (H1 & H2 & H3 & H4). repeat split; assumption.
    - apply IH; [| exact Hin].
      intros g Hg. apply Hall. right. exact Hg. }
  rewrite <- (app_nil_r (join_fields d fs)).
  rewrite (@tokenizer_unquoted_until d (join_fields d fs) [] Hd Hplain)
    by (left; reflexivity).
  rewrite naive_split_join; [reflexivity | exact Hne |].
  intros f Hf. apply Hall. exact Hf.
Qed.

Lemma unquoted_fields_round_trip_witness :
  s_parse_line_to_row (join_fields COMMA [bytes "x"; []; bytes " y z"]) COMMA =
  Ok {| fields := [bytes "x"; []; bytes " y z"]; num_fields := 3 |}.
Proof.
  apply (@unquoted_fields_round_trip COMMA [bytes "x"; []; bytes " y z"]
           valid_delim_comma).
  - discriminate.
  - intros f Hf.
    assert (Hb : forallb (fun c => negb (Ascii.eqb c QUOTE || Ascii.eqb c CR
                            || Ascii.eqb c LF || Ascii.eqb c NUL)) f = true
                 /\ forallb (fun c => negb (Ascii.eqb c COMMA)) f = true).
    { destruct Hf as [<- | [<- | [<- | []]]]; split; reflexivity. }
    destruct Hb as [Hp Hc]. split; [| apply plain_bytes_of_list; exact Hp].
    intros Hin. rewrite forallb_forall in Hc. specialize (Hc _ Hin).
    rewrite Ascii.eqb_refl in Hc. discriminate.
Defined.

(** * Further properties of the line reader *)

(** X7: a line is skipped exactly when it is made of white space
    followed by nothing, by the string terminator or by [#]: white space
    only, or a comment.  A [#] that follows a byte that is not white
    space does not make a comment. *)
Theorem skippable_iff_blank_or_comment :
  forall s : list ascii,
    s_line_is_skippable s = true <->
    exists ws rest,
      s = ws ++ rest /\
      (forall c, In c ws -> isspace c = true) /\
      (rest = [] \/ exists c r, rest = c :: r /\ (c = NUL \/ c = HASH)).
Proof.
  intros s. split.
  - induction s as [| c s IH]; intros H.
    + exists [], []. split; [reflexivity |]. split; [intros c [] | auto].
    + simpl in H. destruct (Ascii.eqb_spec c NUL) as [-> | Hn].
      * exists [], (NUL :: s). split; [reflexivity |].
        split; [intros c [] |]. right. eauto.
      * destruct (isspace c) eqn:Hsp.
        -- destruct (IH H) as (ws & rest & -> & Hws & Hrest).
           exists (c :: ws), rest. split; [reflexivity |].
           split; [| exact Hrest].
           intros x [<- | Hx]; [exact Hsp | apply Hws; exact Hx].
        -- apply Ascii.eqb_eq in H. subst c.
           exists [], (HASH :: s). split; [reflexivity |].
           split; [intros c [] |]. right. eauto.
  - intros (ws & rest & -> & Hws & Hrest).
    induction ws as [| c ws IH].
    + simpl. destruct Hrest as [-> | (c & r & -> & [-> | ->])]; reflexivity.
    + simpl.
      assert (Hsp : isspace c = true) by (apply Hws; left; reflexivity).
      destruct (Ascii.eqb_spec c NUL) as [-> | _]; [reflexivity |].
      rewrite Hsp. apply IH. intros x Hx. apply Hws. right. exact Hx.
Qed.

Lemma skippable_iff_blank_or_comment_witness :
  s_line_is_skippable (bytes "  " ++ HT :: bytes "# note") = true /\
  s_line_is_skippable (bytes "a # note") = false.
Proof.
  split.
  - apply skippable_iff_blank_or_comment.
    exists (bytes "  " ++ [HT]), (bytes "# note").
    split; [reflexivity |]. split.
    + simpl. intros c [<- | [<- | [<- | []]]]; reflexivity.
    + right. exists HASH, (bytes " note"). split; [reflexivity | auto].
  - reflexivity.
Defined.

Lemma strip_newline_lf (l : list ascii) :
  strip_newline (l ++ [LF]) =
  if (0 <? length l) && Ascii.eqb (last l NUL) CR then removelast l else l.
Proof.
  unfold strip_newline.
  rewrite last_last, removelast_last, length_app. simpl.
  replace (0 <? length l + 1) with true
    by (symmetry; apply Nat.ltb_lt; lia).
  reflexivity.
Qed.

(** X8: only the line ending is taken off a physical line: one LF at
    the end, and one CR before it when there is one.  A line that does
    not end in LF is left as it is, a CR at its end included, and of
    two CR before the LF the first one stays. *)
Theorem strip_newline_line_ending :
  (forall l, strip_newline (l ++ [CR; LF]) = l) /\
  (forall l c, c <> CR -> strip_newline (l ++ [c; LF]) = l ++ [c]) /\
  strip_newline [LF] = [] /\
  (forall l c, c <> LF -> strip_newline (l ++ [c]) = l ++ [c]) /\
  strip_newline [] = [].
Proof.
  split; [| split; [| split; [reflexivity | split; [| reflexivity]]]].
  - intros l.
    change (l ++ [CR; LF]) with (l ++ [CR] ++ [LF]).
    rewrite app_assoc, strip_newline_lf.
    rewrite last_last, removelast_last, length_app. simpl.
    replace (0 <? length l + 1) with true
      by (symmetry; apply Nat.ltb_lt; lia).
    reflexivity.
  - intros l c Hc.
    change (l ++ [c; LF]) with (l ++ [c] ++ [LF]).
    rewrite app_assoc, strip_newline_lf.
    rewrite last_last, (ascii_eqb_false Hc), andb_false_r. reflexivity.
  - intros l c Hc. unfold strip_newline.
    rewrite last_last, (ascii_eqb_false Hc), andb_false_r. reflexivity.
Qed.

Lemma strip_newline_line_ending_witness :
  strip_newline (bytes "a,b" ++ [CR; CR; LF]) = bytes "a,b" ++ [CR] /\
  strip_newline (bytes "a,b" ++ [CR]) = bytes "a,b" ++ [CR].
Proof.
  destruct strip_newline_line_ending as (Hcrlf & _ & _ & Hkeep & _).
  split.
  - apply (Hcrlf (bytes "a,b" ++ [CR])).
  - apply (Hkeep (bytes "a,b") CR). byte_neq.
Defined.

Lemma split_lines_getline (s raw s' : list ascii) :
  getline s = Some (raw, s') -> split_lines s = raw :: split_lines s'.
Proof.
  destruct s as [| c0 s0]; [discriminate |].
  unfold getline. intros H.
  assert (E : read_until_nl (c0 :: s0) = (raw, s')) by congruence.
  clear H. revert c0 raw s' E.
  induction s0 as [| c1 s1 IH]; intros c0 raw s' E.
  - simpl in *. destruct (Ascii.eqb c0 LF); inversion E; reflexivity.
  - cbn [read_until_nl] in E. cbn [split_lines].
    destruct (Ascii.eqb c0 LF); [inversion E; reflexivity |].
    destruct (read_until_nl (c1 :: s1)) as [l r] eqn:Er.
    change (if Ascii.eqb c1 LF then ([c1], s1)
            else let '(l, r) := read_until_nl s1 in (c1 :: l, r))
      with (read_until_nl (c1 :: s1)) in E.
    rewrite Er in E. inversion E; subst.
    change (if Ascii.eqb c1 LF then [c1] :: split_lines s1
            else match split_lines s1 with
                 | [] => [[c1]]
                 | l :: ls => (c1 :: l) :: ls
                 end)
      with (split_lines (c1 :: s1)).
    rewrite (IH c1 l s' Er). reflexivity.
Qed.

Lemma count_lines_split_lines (s : list ascii) :
  count_lines s = length (split_lines s).
Proof.
  remember (length s) as n eqn:Hn. revert s Hn.
  induction n as [n IH] using lt_wf_ind. intros s Hn.
  destruct (getline s) as [[raw s'] |] eqn:Hg.
  - destruct (getline_some _ Hg) as [Hc Hl].
    rewrite Hc, (split_lines_getline _ Hg). simpl.
    f_equal. apply (IH (length s')); [lia | reflexivity].
  - apply getline_none in Hg. subst. reflexivity.
Qed.

Lemma read_until_nl_lf (s : list ascii) :
  ~ In LF (fst (read_until_nl s)) \/
  exists l, fst (read_until_nl s) = l ++ [LF] /\ ~ In LF l.
Proof.
  induction s as [| c s IH]; simpl.
  - left. intros [].
  - destruct (Ascii.eqb_spec c LF) as [-> | Hne].
    + right. exists []. split; [reflexivity | intros []].
    + destruct (read_until_nl s) as [l r]. simpl in *.
      destruct IH as [H | [l' [-> H]]].
      * left. intros [E | E]; [congruence | contradiction].
      * right. exists (c :: l'). split; [reflexivity |].
        intros [E | E]; [congruence | contradiction].
Qed.

Lemma strip_newline_keep (l : list ascii) (c : ascii) :
  c <> LF -> strip_newline (l ++ [c]) = l ++ [c].
Proof.
  intros Hc. unfold strip_newline.
  rewrite last_last, (ascii_eqb_false Hc), andb_false_r. reflexivity.
Qed.

Lemma last_cases (l : list ascii) :
  l = [] \/ exists l' a, l = l' ++ [a].
Proof.
  destruct l as [| x l]; [left; reflexivity | right].
  destruct (@exists_last _ (x :: l)) as (l' & a & E); [discriminate |].
  exists l', a. exact E.
Qed.

Lemma in_removelast (x : ascii) (l : list ascii) :
  In x (removelast l) -> In x l.
Proof.
  destruct (last_cases l) as [-> | (l' & a & ->)].
  - intros [].
  - rewrite removelast_last. intros H. apply in_or_app. left. exact H.
Qed.

(** The line ending taken off, no LF is left in a line read by
    [getline]. *)
Lemma strip_newline_no_lf (s : list ascii) :
  ~ In LF (strip_newline (fst (read_until_nl s))).
Proof.
  destruct (read_until_nl_lf s) as [H | [l [-> H]]].
  - destruct (last_cases (fst (read_until_nl s))) as [E | (l' & a & E)];
      rewrite E in *.
    + exact H.
    + rewrite strip_newline_keep; [exact H |].
      intros ->. apply H. apply in_or_app. right. left. reflexivity.
  - rewrite strip_newline_lf.
    destruct ((0 <? length l) && Ascii.eqb (last l NUL) CR); [| exact H].
    intros Hin. apply H. apply in_removelast. exact Hin.
Qed.

Lemma data_lines_getline (s raw s' : list ascii) :
  getline s = Some (raw, s') ->
  data_lines s =
  if s_line_is_skippable (strip_newline raw) then data_lines s'
  else strip_newline raw :: data_lines s'.
Proof.
  intros H. unfold data_lines. rewrite (split_lines_getline _ H). simpl.
  destruct (s_line_is_skippable (strip_newline raw)); reflexivity.
Qed.

Section ReaderFacts.

Variable size_bits : N.
Variable fopen : option (list ascii) -> option (list ascii).

(** What one run of the reading loop does to the data lines ahead. *)
Lemma read_loop_data (fuel : nat) :
  forall s ln r s' ln',
    read_loop size_bits fuel s ln = Ok (r, s', ln') ->
    match r with
    | None => data_lines s = [] /\ s' = []
    | Some line =>
        data_lines s = line :: data_lines s' /\
        s_line_is_skippable line = false /\ ~ In LF line /\
        length s' < length s
    end.
Proof.
  induction fuel as [| fuel IH]; intros s ln r s' ln' H; [discriminate |].
  simpl in H. destruct (getline s) as [[raw s1] |] eqn:Hg.
  - rewrite (data_lines_getline _ Hg).
    destruct (getline_some _ Hg) as [_ Hlen].
    destruct (s_line_is_skippable (strip_newline raw)) eqn:Hskip.
    + apply IH in H. destruct r; [| exact H].
      destruct H as (H1 & H2 & H3 & H4). repeat split; try assumption. lia.
    + inversion H; subst. repeat split; try assumption.
      destruct s as [| c s]; [discriminate |].
      unfold getline in Hg.
      assert (E : raw = fst (read_until_nl (c :: s))).
      { match type of Hg with
        | Some ?x = Some ?y => assert (E0 : x = y) by congruence
        end.
        rewrite E0. reflexivity. }
      rewrite E. apply strip_newline_no_lf.
  - apply getline_none in Hg. subst. inversion H; subst.
    split; reflexivity.
Qed.


End ReaderFacts.


(** * Further properties of the public operations *)

Section OperationFacts.

Variable size_bits : N.
Variable fopen : option (list ascii) -> option (list ascii).

(** A successful call of [csv_parser_header], case by case. *)
Lemma csv_parser_header_sem (p : csv_parser_td) r q :
  csv_parser_header size_bits (Some p) = Ok (r, q) ->
  exists p', q = Some p' /\
    filename p' = filename p /\ delim p' = delim p /\
    has_header p' = has_header p /\
    ((has_header p = false /\ r = None /\ p' = p) \/
     (has_header p = true /\ exists h,
        header p = Some h /\ r = Some h /\ p' = p) \/
     (has_header p = true /\ header p = None /\
      exists s s', fp p = Some s /\ fp p' = Some s' /\
        ((data_lines s = [] /\ s' = [] /\ r = None /\ header p' = None) \/
         (exists hl row,
            data_lines s = hl :: data_lines s' /\ length s' < length s /\
            s_parse_line_to_row hl (delim p) = Ok row /\
            r = Some row /\ header p' = Some row)))).
Proof.
  intros H. unfold csv_parser_header in H.
  destruct (has_header p) eqn:Hh; simpl in H.
  2: { inversion H; subst. exists p. auto 10. }
  destruct (header p) as [h |] eqn:Hhdr.
  { inversion H; subst. exists p. do 4 (split; [first [reflexivity | assumption] |]).
    right. left. split; [reflexivity |]. exists h. auto. }
  apply bind_ok in H. destruct H as [[[len s'] n'] [Hread H]].
  destruct (fp p) as [s |] eqn:Hfp; [| discriminate].
  unfold s_read_next_non_skippable_line in Hread.
  pose proof (read_loop_data _ _ _ _ Hread) as Hdata.
  destruct len as [line |].
  - apply bind_ok in H. destruct H as [row [Htok H]].
    inversion H; subst. eexists. split; [reflexivity |].
    simpl. do 3 (split; [first [reflexivity | assumption] |]).
    right. right. do 2 (split; [first [reflexivity | assumption] |]).
    exists s, s'. do 2 (split; [first [reflexivity | assumption] |]).
    right. exists line, row. destruct Hdata as (H1 & _ & _ & H4).
    split; [exact H1 |]. split; [exact H4 |]. split; [exact Htok |].
    split; reflexivity.
  - inversion H; subst. eexists. split; [reflexivity |].
    simpl. do 3 (split; [first [reflexivity | assumption] |]).
    right. right. do 2 (split; [first [reflexivity | assumption] |]).
    exists s, s'. do 2 (split; [first [reflexivity | assumption] |]).
    left. destruct Hdata as [H1 H2].
    split; [exact H1 |]. split; [exact H2 |].
    split; [reflexivity | exact Hhdr].
Qed.

(** X10: the header is read once.  When a call of [csv_parser_header]
    has returned, calling it again returns the same result and leaves
    the parser as it is: the cached row is returned without reading,
    and at the end of the stream the answer stays [NULL]. *)
Theorem header_call_idempotent :
  forall (p : csv_parser_td) r p',
    csv_parser_header size_bits (Some p) = Ok (r, Some p') ->
    csv_parser_header size_bits (Some p') = Ok (r, Some p').
Proof.
  intros p r p' H.
  destruct (csv_parser_header_sem _ H)
    as (p1 & E & _ & _ & Hh & Hcase).
  inversion E; subst p1. clear E.
  destruct Hcase as [(_ & _ & ->) | [(_ & h & _ & _ & ->) | Hpend]];
    [exact H | exact H |].
  destruct Hpend as (Hhp & _ & s & s' & _ & Hfp' & Hcase).
  rewrite Hhp in Hh. unfold csv_parser_header. rewrite Hh. simpl.
  destruct Hcase as [(_ & -> & -> & Hnone) | (hl & row & _ & _ & _ & -> & Hsome)].
  - rewrite Hnone, Hfp'. simpl.
    destruct p' as [f n d hh ln hd]. simpl in *. subst. reflexivity.
  - rewrite Hsome. reflexivity.
Qed.

(** The data lines ahead of a parser whose stream is [s]. *)
Lemma rows_ahead_open (content : list ascii) (p : csv_parser_td) s :
  fp p = Some s ->
  rows_ahead content p =
  if has_header p && is_null (header p)
  then tl (data_lines s) else data_lines s.
Proof. intros H. unfold rows_ahead, unread. rewrite H. reflexivity. Qed.

(** A successful call of [csv_parser_row] on an open parser. *)
Lemma csv_parser_row_open_sem (content : list ascii) (p : csv_parser_td) s0 r q :
  fp p = Some s0 ->
  csv_parser_row size_bits fopen (Some p) = Ok (r, q) ->
  exists p' s', q = Some p' /\ fp p' = Some s' /\
    filename p' = filename p /\ delim p' = delim p /\
    has_header p' = has_header p /\
    (forall h, header p = Some h -> header p' = Some h) /\
    (has_header p = true -> header p = None ->
     (data_lines s0 = [] /\ header p' = None /\ s' = []) \/
     (exists hl rest row,
        data_lines s0 = hl :: rest /\
        s_parse_line_to_row hl (delim p) = Ok row /\
        header p' = Some row)) /\
    match r with
    | Some row =>
        exists line,
          rows_ahead content p = line :: rows_ahead content p' /\
          s_parse_line_to_row line (delim p) = Ok row /\
          length s' < length s0
    | None => rows_ahead content p = [] /\ s' = []
    end.
Proof.
  intros Hfp H. rewrite (rows_ahead_open content _ Hfp).
  unfold csv_parser_row in H. rewrite Hfp in H.
  apply bind_ok in H. destruct H as [p2 [Hhdr H]].
  assert (Hp2 : exists s2, fp p2 = Some s2 /\
            filename p2 = filename p /\ delim p2 = delim p /\
            has_header p2 = has_header p /\
            (forall h, header p = Some h -> header p2 = Some h) /\
            (if has_header p && is_null (header p)
             then tl (data_lines s0) else data_lines s0) = data_lines s2 /\
            (has_header p2 && is_null (header p2) = true ->
             data_lines s2 = []) /\
            (has_header p = true -> header p = None ->
             (data_lines s0 = [] /\ header p2 = None /\ s2 = []) \/
             (exists hl rest row,
                data_lines s0 = hl :: rest /\
                s_parse_line_to_row hl (delim p) = Ok row /\
                header p2 = Some row)) /\
            length s2 <= length s0).
  { destruct (has_header p && is_null (header p)) eqn:Hpend.
    - apply bind_ok in Hhdr. destruct Hhdr as [[r0 q0] [Hcall Hq0]].
      destruct q0 as [p2' |]; [| discriminate].
      inversion Hq0; subst p2'. clear Hq0.
      apply andb_true_iff in Hpend. destruct Hpend as [Hh Hnull].
      destruct (header p) as [h0 |] eqn:Hhd; [discriminate |].
      destruct (csv_parser_header_sem _ Hcall)
        as (p2' & E & Hfn & Hdl & Hhh & Hcase).
      inversion E; subst p2'. clear E.
      destruct Hcase as [(Hf & _) | [(_ & h & Hsome & _) | Hcase]];
        [congruence | congruence |].
      destruct Hcase as (_ & _ & s & s2 & Hs & Hfp2 & Hcase).
      rewrite Hfp in Hs. inversion Hs; subst s. clear Hs.
      exists s2. do 4 (split; [assumption |]).
      split; [intros h Hx; discriminate |].
      destruct Hcase as [(Hd & -> & _ & Hnone) |
                         (hl & row & Hd & Hlen & Htk & _ & Hsome)].
      + rewrite Hd. split; [reflexivity |]. split; [reflexivity |].
        split; [| simpl; lia]. intros _ _. left. auto.
      + rewrite Hd. split; [reflexivity |].
        split; [rewrite Hsome, andb_false_r; discriminate |].
        split; [| lia]. intros _ _. right. exists hl, (data_lines s2), row.
        auto.
    - inversion Hhdr; subst p2. exists s0.
      do 4 (split; [first [reflexivity | assumption] |]).
      split; [auto |]. split; [reflexivity |].
      split; [intros E; congruence |]. split; [| lia].
      intros E1 E2. rewrite E1, E2 in Hpend. discriminate. }
  destruct Hp2
    as (s2 & Hfp2 & Hfn & Hdl & Hhh & Hkeep & Hahead & Hpend2 & Hhdr2 & Hlen2).
  rewrite Hahead.
  apply bind_ok in H. destruct H as [[[len s'] n'] [Hread H]].
  rewrite Hfp2 in Hread. unfold s_read_next_non_skippable_line in Hread.
  pose proof (read_loop_data _ _ _ _ Hread) as Hdata.
  assert (Hq : q = Some (set_line_no n' (set_fp (Some s') p2)) /\
               (r = None <-> len = None) /\
               (forall row line, r = Some row -> len = Some line ->
                  s_parse_line_to_row line (delim p) = Ok row)).
  { destruct len as [line |].
    - apply bind_ok in H. destruct H as [row [Htok H]].
      inversion H; subst. split; [reflexivity |].
      split; [split; discriminate |].
      intros row0 line0 E1 E2. inversion E1; inversion E2; subst.
      simpl in Htok. rewrite <- Hdl. exact Htok.
    - inversion H; subst. split; [reflexivity |].
      split; [tauto |]. intros row line E. discriminate. }
  destruct Hq as (-> & Hnone & Htok).
  eexists _, s'. split; [reflexivity |]. split; [reflexivity |].
  simpl. do 4 (split; [assumption |]).
  split.
  { intros E1 E2.
    destruct (Hhdr2 E1 E2) as [(Hd0 & Hn0 & ->) | Hfound]; [| right; exact Hfound].
    left. split; [exact Hd0 |]. split; [exact Hn0 |].
    destruct len as [line |]; [| apply Hdata].
    destruct Hdata as (Hd & _). discriminate Hd. }
  unfold rows_ahead, unread. simpl.
  destruct r as [row |]; destruct len as [line |];
    try (exfalso; destruct Hnone as [Hn1 Hn2];
         first [discriminate (Hn1 eq_refl) | discriminate (Hn2 eq_refl)]).
  - destruct Hdata as (Hd & _ & _ & Hl).
    exists line. split; [| split; [apply (Htok row line); reflexivity | lia]].
    destruct (has_header p2 && is_null (header p2)) eqn:Hpend.
    + rewrite (Hpend2 eq_refl) in Hd. discriminate.
    + exact Hd.
  - exact Hdata.
Qed.

(** A successful call of [csv_parser_row] keeps the configuration of the
    parser and a header that is cached. *)
Lemma csv_parser_row_frame (p : csv_parser_td) r q :
  csv_parser_row size_bits fopen (Some p) = Ok (r, q) ->
  exists p', q = Some p' /\
    filename p' = filename p /\ delim p' = delim p /\
    has_header p' = has_header p /\
    (forall h, header p = Some h -> header p' = Some h).
Proof.
  intros H. destruct (fp p) as [s0 |] eqn:Hfp.
  - destruct (@csv_parser_row_open_sem [] p s0 r q Hfp H)
      as (p' & s' & E & _ & H1 & H2 & H3 & H4 & _).
    exists p'. auto.
  - destruct (fopen (filename p)) as [s0 |] eqn:Hfo.
    + assert (E : csv_parser_row size_bits fopen (Some p) =
                  csv_parser_row size_bits fopen (Some (set_fp (Some s0) p))).
      { unfold csv_parser_row. rewrite Hfp, Hfo. reflexivity. }
      rewrite E in H.
      destruct (@csv_parser_row_open_sem [] (set_fp (Some s0) p) s0 r q
                  eq_refl H)
        as (p' & s' & Eq & _ & H1 & H2 & H3 & H4 & _).
      exists p'. auto.
    + unfold csv_parser_row in H. rewrite Hfp, Hfo in H.
      inversion H; subst. exists p. auto.
Qed.

(** X11: the configuration of a parser is fixed at [csv_parser_init],
    and a header, once cached, stays the same row: no sequence of calls
    of [csv_parser_header] and [csv_parser_row] changes the file name,
    the delimiter, the [has_header] flag or a cached header. *)
Theorem header_and_configuration_stable :
  forall p p' : csv_parser_td,
    parser_reaches size_bits fopen p p' ->
    filename p' = filename p /\ delim p' = delim p /\
    has_header p' = has_header p /\
    (forall h, header p = Some h -> header p' = Some h).
Proof.
  intros p p' H. induction H as [| p1 r p2 _ IH Hh | p1 r p2 _ IH Hr].
  - auto.
  - destruct IH as (I1 & I2 & I3 & I4).
    destruct (csv_parser_header_sem _ Hh) as (p3 & E & H1 & H2 & H3 & Hcase).
    inversion E; subst p3.
    do 3 (split; [congruence |]).
    intros h Hp. specialize (I4 h Hp).
    destruct Hcase as [(_ & _ & ->) | [(_ & h0 & _ & _ & ->) | Hc]];
      [exact I4 | exact I4 |].
    destruct Hc as (_ & Hnone & _). congruence.
  - destruct IH as (I1 & I2 & I3 & I4).
    destruct (csv_parser_row_frame _ Hr) as (p3 & E & H1 & H2 & H3 & H4).
    inversion E; subst p3.
    do 3 (split; [congruence |]). auto.
Qed.

(** X12: the rows do not depend on whether the header was asked for.
    When a call of [csv_parser_header] has returned, the call of
    [csv_parser_row] that follows returns the row, and leaves the
    parser, that [csv_parser_row] would have without the call of
    [csv_parser_header]. *)
Theorem row_independent_of_header_call :
  forall (p : csv_parser_td) h p1,
    csv_parser_header size_bits (Some p) = Ok (h, Some p1) ->
    csv_parser_row size_bits fopen (Some p1) =
    csv_parser_row size_bits fopen (Some p).
Proof.
  intros p h p1 H.
  destruct (csv_parser_header_sem _ H) as (p2 & E & _ & _ & Hhh & Hcase).
  inversion E; subst p2. clear E.
  destruct Hcase as [(_ & _ & ->) | [(_ & h0 & _ & _ & ->) | Hc]];
    [reflexivity | reflexivity |].
  destruct Hc as (Hh & Hnone & s & s' & Hfp & Hfp1 & Hcase).
  rewrite Hh in Hhh.
  unfold csv_parser_row. rewrite Hfp, Hfp1, Hhh, Hh, Hnone.
  cbv beta iota zeta. cbn [andb is_null]. rewrite H. cbn [bind].
  destruct Hcase as [(_ & -> & -> & Hn1) | (hl & row & _ & _ & _ & _ & Hs1)].
  - rewrite Hn1. cbn [andb is_null].
    assert (Hagain : csv_parser_header size_bits (Some p1)
                     = Ok (None, Some p1)).
    { unfold csv_parser_header. rewrite Hhh, Hn1, Hfp1. simpl.
      destruct p1 as [f n d hh ln hd]. simpl in *. subst. reflexivity. }
    rewrite Hagain. reflexivity.
  - rewrite Hs1. reflexivity.
Qed.

(** A successful call of [csv_parser_row] on the file [content], open in
    the parser or about to be opened by the call. *)
Lemma csv_parser_row_sem (content : list ascii) (p : csv_parser_td) r q :
  (fp p = None -> fopen (filename p) = Some content) ->
  csv_parser_row size_bits fopen (Some p) = Ok (r, q) ->
  exists p' s', q = Some p' /\ fp p' = Some s' /\
    filename p' = filename p /\ delim p' = delim p /\
    has_header p' = has_header p /\
    (forall h, header p = Some h -> header p' = Some h) /\
    (has_header p = true -> header p = None ->
     (data_lines (unread content p) = [] /\ header p' = None /\ s' = []) \/
     (exists hl rest row,
        data_lines (unread content p) = hl :: rest /\
        s_parse_line_to_row hl (delim p) = Ok row /\
        header p' = Some row)) /\
    match r with
    | Some row =>
        exists line,
          rows_ahead content p = line :: rows_ahead content p' /\
          s_parse_line_to_row line (delim p) = Ok row /\
          length s' < length (unread content p)
    | None => rows_ahead content p = [] /\ s' = []
    end.
Proof.
  intros Hfile H. destruct (fp p) as [s0 |] eqn:Hfp.
  - unfold unread. rewrite Hfp.
    apply (csv_parser_row_open_sem content _ Hfp H).
  - specialize (Hfile eq_refl).
    assert (E : csv_parser_row size_bits fopen (Some p) =
                csv_parser_row size_bits fopen
                  (Some (set_fp (Some content) p))).
    { unfold csv_parser_row. rewrite Hfp, Hfile. reflexivity. }
    rewrite E in H.
    assert (Ha : rows_ahead content p =
                 rows_ahead content (set_fp (Some content) p)).
    { unfold rows_ahead, unread. rewrite Hfp. reflexivity. }
    unfold unread at 1 2 3. rewrite Hfp, Ha.
    apply (@csv_parser_row_open_sem content (set_fp (Some content) p)
             content r q eq_refl H).
Qed.

Lemma drain_rows_from (content : list ascii) (fuel : nat) :
  forall p,
    (fp p = None -> fopen (filename p) = Some content) ->
    length (unread content p) < fuel ->
    drain size_bits fopen fuel (Some p) <> OutOfFuel /\
    forall rows q,
      drain size_bits fopen fuel (Some p) = Ok (rows, q) ->
      map Ok rows =
      map (fun line => s_parse_line_to_row line (delim p))
          (rows_ahead content p).
Proof.
  induction fuel as [| fuel IH]; intros p Hfile Hf; [lia |].
  cbn [drain].
  destruct (csv_parser_row size_bits fopen (Some p)) as [[r q] | |] eqn:Hrow;
    cbn [bind].
  - destruct (@csv_parser_row_sem content p r q Hfile Hrow)
      as (p' & s' & -> & Hfp' & _ & Hdl & _ & _ & _ & Hr).
    destruct r as [row |].
    + destruct Hr as (line & Hahead & Htok & Hlen).
      destruct (IH p') as [Hne Hok].
      { intros E. congruence. }
      { unfold unread at 1. rewrite Hfp'. lia. }
      destruct (drain size_bits fopen fuel (Some p')) as [[rows q'] | |];
        cbn [bind].
      * split; [discriminate |]. intros rows0 q0 E. inversion E; subst.
        rewrite Hahead. simpl. rewrite Htok. f_equal.
        rewrite (Hok rows q0 eq_refl), Hdl. reflexivity.
      * split; discriminate.
      * contradiction.
    + split; [discriminate |]. intros rows q E. inversion E; subst.
      destruct Hr as [-> _]. reflexivity.
  - split; discriminate.
  - exfalso.
    apply (@csv_parser_row_in_budget size_bits fopen (Some p) Hrow).
Qed.

(** X13: the rows of a file.  Drawing rows until [csv_parser_row]
    returns [NULL] ends within one call per byte of the file and one
    more; when no call runs into undefined behaviour, the rows are the
    tokenized data lines of the file, in the order of the file, one row
    per line that is not blank or a comment, the first of these lines
    left out when the parser has a header. *)
Theorem drain_returns_data_lines :
  forall (fname d : option (list ascii)) (hh : bool) (content : list ascii)
         (fuel : nat),
    fopen fname = Some content ->
    length content < fuel ->
    let p0 := csv_parser_init fname d hh in
    drain size_bits fopen fuel (Some p0) <> OutOfFuel /\
    forall rows q,
      drain size_bits fopen fuel (Some p0) = Ok (rows, q) ->
      map Ok rows =
      map (fun line => s_parse_line_to_row line (delim p0))
          (if hh then tl (data_lines content) else data_lines content).
Proof.
  intros fname d hh content fuel Hopen Hfuel p0.
  destruct (@drain_rows_from content fuel p0) as [Hne Hok].
  - intros _. exact Hopen.
  - exact Hfuel.
  - split; [exact Hne |]. intros rows q E.
    rewrite (Hok rows q E). unfold rows_ahead, unread. simpl.
    rewrite andb_true_r. reflexivity.
Qed.

(** Where the header of a parser on the file [content] comes from. *)
Lemma header_source_inv (fname d : option (list ascii)) (content : list ascii) p :
  fopen fname = Some content ->
  parser_reaches size_bits fopen (csv_parser_init fname d true) p ->
  filename p = fname /\
  delim p = delim (csv_parser_init fname d true) /\
  has_header p = true /\
  match header p with
  | Some h =>
      exists hl rest,
        data_lines content = hl :: rest /\
        s_parse_line_to_row hl (delim p) = Ok h
  | None => forall s, fp p = Some s -> data_lines s = data_lines content
  end.
Proof.
  intros Hopen H.
  induction H as [| p1 r p2 _ IH Hh | p1 r p2 _ IH Hr].
  - simpl. repeat split; try reflexivity. intros s E. discriminate.
  - destruct IH as (I1 & I2 & I3 & I4).
    destruct (csv_parser_header_sem _ Hh) as (p3 & E & H1 & H2 & H3 & Hcase).
    inversion E; subst p3. clear E.
    do 3 (split; [congruence |]).
    destruct Hcase as [(Hf & _) | [(_ & h0 & _ & _ & ->) | Hc]];
      [congruence | exact I4 |].
    destruct Hc as (_ & Hnone & s & s' & Hfp & Hfp' & Hcase).
    rewrite Hnone in I4. specialize (I4 s Hfp).
    destruct Hcase as [(Hd & -> & _ & Hn) | (hl & row & Hd & _ & Htok & _ & Hs)].
    + rewrite Hn. intros s0 E. rewrite Hfp' in E. inversion E; subst.
      rewrite <- I4, Hd. reflexivity.
    + rewrite Hs. exists hl, (data_lines s'). rewrite <- I4, H2. auto.
  - destruct IH as (I1 & I2 & I3 & I4).
    destruct (@csv_parser_row_sem content p1 r (Some p2))
      as (p3 & s' & E & Hfp' & H1 & H2 & H3 & H4 & H5 & _);
      [intros _; rewrite I1; exact Hopen | exact Hr |].
    inversion E; subst p3. clear E.
    do 3 (split; [congruence |]).
    destruct (header p1) as [h |] eqn:Hhd.
    + rewrite (H4 h eq_refl). rewrite H2. exact I4.
    + assert (Hun : data_lines (unread content p1) = data_lines content).
      { unfold unread. destruct (fp p1) as [s |] eqn:Hfp; [| reflexivity].
        apply I4. reflexivity. }
      destruct (H5 I3 eq_refl) as [(Hd & Hn & ->) | (hl & rest & row & Hd & Htok & Hs)].
      * rewrite Hn. intros s E. rewrite Hfp' in E. inversion E; subst.
        rewrite <- Hun, Hd. reflexivity.
      * rewrite Hs. exists hl, rest. rewrite <- Hun, H2. auto.
Qed.

(** X14: the header is the first data line of the file.  On a parser
    made with [has_header] set, for a file that [fopen] opens, a call
    of [csv_parser_header] that returns, after any calls of
    [csv_parser_row] and [csv_parser_header], returns the tokenized
    first line that is not blank or a comment, and [NULL] when the file
    has no such line. *)
Theorem header_is_first_data_line :
  forall (fname d : option (list ascii)) (content : list ascii) p r p',
    fopen fname = Some content ->
    parser_reaches size_bits fopen (csv_parser_init fname d true) p ->
    csv_parser_header size_bits (Some p) = Ok (r, Some p') ->
    match data_lines content with
    | [] => r = None
    | hl :: _ =>
        exists row,
          s_parse_line_to_row hl (delim (csv_parser_init fname d true))
            = Ok row /\
          r = Some row
    end.
Proof.
  intros fname d content p r p' Hopen Hreach Hcall.
  assert (Hreach' : parser_reaches size_bits fopen
                      (csv_parser_init fname d true) p')
    by (eapply parser_reaches_header; eassumption).
  destruct (header_source_inv Hopen Hreach) as (_ & Hdl & Hh & _).
  destruct (header_source_inv Hopen Hreach') as (_ & Hdl' & _ & Hsrc').
  destruct (csv_parser_header_sem _ Hcall) as (p1 & E & _ & _ & _ & Hcase).
  inversion E; subst p1. clear E.
  assert (Hr : r = header p').
  { destruct Hcase as [(Hf & _) | [(_ & h & Hs & -> & ->) | Hc]];
      [congruence | symmetry; exact Hs |].
    destruct Hc as (_ & _ & s & s' & _ & _ & [(_ & _ & -> & Hn) | Hc]);
      [symmetry; exact Hn |].
    destruct Hc as (hl & row & _ & _ & _ & -> & Hs). symmetry. exact Hs. }
  rewrite <- Hr in Hsrc'. destruct r as [row |].
  - destruct Hsrc' as (hl & rest & -> & Htok).
    exists row. rewrite <- Hdl'. auto.
  - destruct Hcase as [(Hf & _) | [(_ & h & _ & Hx & _) | Hc]];
      [congruence | discriminate |].
    destruct Hc as (_ & _ & s & s' & Hfp & Hfp' & [(Hd & -> & _) | Hc]).
    + rewrite <- (Hsrc' [] Hfp'). reflexivity.
    + destruct Hc as (hl & row & _ & _ & _ & Hx & _). discriminate.
Qed.

(** X15: a file that cannot be opened.  When [fopen] fails on the file
    of a parser that has not been opened, [csv_parser_row] returns
    [NULL] and leaves the parser as it is, so that every later call
    does the same; in particular [line_no] stays 0 on a new parser. *)
Theorem unavailable_input_is_absent :
  forall (fname d : option (list ascii)) (hh : bool) p,
    fopen fname = None ->
    parser_reaches size_bits fopen (csv_parser_init fname d hh) p ->
    p = csv_parser_init fname d hh /\
    csv_parser_row size_bits fopen (Some p) = Ok (None, Some p) /\
    line_no p = 0%N.
Proof.
  intros fname d hh p Hfail H.
  assert (Hrow : csv_parser_row size_bits fopen
                   (Some (csv_parser_init fname d hh))
                 = Ok (None, Some (csv_parser_init fname d hh))).
  { unfold csv_parser_row. simpl. rewrite Hfail. reflexivity. }
  assert (E : p = csv_parser_init fname d hh).
  { induction H as [| p1 r p2 _ IH Hh | p1 r p2 _ IH Hr].
    - reflexivity.
    - subst p1.
      destruct (csv_parser_header_sem _ Hh) as (p3 & E & _ & _ & _ & Hcase).
      inversion E; subst p3.
      destruct Hcase as [(_ & _ & ->) | [(_ & h & _ & _ & ->) | Hc]];
        [reflexivity | reflexivity |].
      destruct Hc as (_ & _ & s & _ & Hfp & _). discriminate.
    - subst p1. rewrite Hrow in Hr. inversion Hr. reflexivity. }
  subst p. split; [reflexivity |]. split; [exact Hrow | reflexivity].
Qed.

End OperationFacts.

Lemma header_call_idempotent_witness :
  let p := {| fp := Some (bytes "x,y" ++ LF :: bytes "1,2");
              filename := None; delim := COMMA; has_header := true;
              line_no := 0%N; header := None |} in
  let hrow := {| fields := [bytes "x"; bytes "y"]; num_fields := 2 |} in
  let p' := {| fp := Some (bytes "1,2");
               filename := None; delim := COMMA; has_header := true;
               line_no := 1%N; header := Some hrow |} in
  csv_parser_header 64 (Some p') = Ok (Some hrow, Some p').
Proof.
  intros p hrow p'.
  apply (@header_call_idempotent 64 p (Some hrow) p').
  vm_compute. reflexivity.
Defined.

Lemma header_and_configuration_stable_witness :
  let content := bytes "x,y" ++ LF :: bytes "1,2" ++ [LF] in
  let fopen := fun _ : option (list ascii) => Some content in
  let p := csv_parser_init (Some (bytes "data.csv")) (Some (bytes ";")) true in
  let p' := {| fp := Some []; filename := Some (bytes "data.csv");
               delim := ";"%char; has_header := true; line_no := 2%N;
               header := Some {| fields := [bytes "x,y"]; num_fields := 1 |} |} in
  filename p' = filename p /\ delim p' = delim p /\
  has_header p' = has_header p /\
  (forall h, header p = Some h -> header p' = Some h).
Proof.
  intros content fopen p p'.
  apply (@header_and_configuration_stable 64 fopen p p').
  eapply parser_reaches_row; [apply parser_reaches_here |].
  vm_compute. reflexivity.
Defined.

Lemma row_independent_of_header_call_witness :
  let fopen := fun _ : option (list ascii) => @None (list ascii) in
  let p := {| fp := Some (bytes "x,y" ++ LF :: bytes "1,2" ++ [LF]);
              filename := None; delim := COMMA; has_header := true;
              line_no := 0%N; header := None |} in
  let hrow := {| fields := [bytes "x"; bytes "y"]; num_fields := 2 |} in
  let p1 := {| fp := Some (bytes "1,2" ++ [LF]);
               filename := None; delim := COMMA; has_header := true;
               line_no := 1%N; header := Some hrow |} in
  csv_parser_row 64 fopen (Some p1) = csv_parser_row 64 fopen (Some p).
Proof.
  intros fopen p hrow p1.
  apply (@row_independent_of_header_call 64 fopen p (Some hrow) p1).
  vm_compute. reflexivity.
Defined.

Lemma drain_returns_data_lines_witness :
  let content := bytes "# people" ++ LF :: bytes "name,age" ++ CR :: LF
                 :: LF :: bytes "Alice,30" ++ CR :: LF :: bytes "Bob,25" in
  let fopen := fun _ : option (list ascii) => Some content in
  let p0 := csv_parser_init (Some (bytes "data.csv")) (Some [COMMA]) true in
  drain 64 fopen (S (length content)) (Some p0) <> OutOfFuel /\
  forall rows q,
    drain 64 fopen (S (length content)) (Some p0) = Ok (rows, q) ->
    map Ok rows =
    map (fun line => s_parse_line_to_row line COMMA)
        [bytes "Alice,30"; bytes "Bob,25"].
Proof.
  intros content fopen p0.
  apply (@drain_returns_data_lines 64 fopen (Some (bytes "data.csv"))
           (Some [COMMA]) true content (S (length content))).
  - reflexivity.
  - lia.
Defined.

Lemma header_is_first_data_line_witness :
  let content := bytes "# people" ++ LF :: bytes "name,age" ++ LF
                 :: bytes "Alice,30" ++ [LF] in
  let hrow := {| fields := [bytes "name"; bytes "age"]; num_fields := 2 |} in
  exists row,
    s_parse_line_to_row (bytes "name,age") COMMA = Ok row /\
    Some hrow = Some row.
Proof.
  intros content hrow.
  set (fopen := fun _ : option (list ascii) => Some content).
  set (p := {| fp := Some []; filename := Some (bytes "data.csv");
               delim := COMMA; has_header := true; line_no := 3%N;
               header := Some hrow |}).
  apply (@header_is_first_data_line 64 fopen (Some (bytes "data.csv"))
           (Some [COMMA]) content p (Some hrow) p).
  - reflexivity.
  - eapply parser_reaches_row; [apply parser_reaches_here |].
    vm_compute. reflexivity.
  - vm_compute. reflexivity.
Defined.

Lemma unavailable_input_is_absent_witness :
  let fopen := fun _ : option (list ascii) => @None (list ascii) in
  let p := csv_parser_init (Some (bytes "missing.csv")) None false in
  p = p /\ csv_parser_row 64 fopen (Some p) = Ok (None, Some p) /\
  line_no p = 0%N.
Proof.
  intros fopen p.
  apply (@unavailable_input_is_absent 64 fopen (Some (bytes "missing.csv"))
           None false p).
  - reflexivity.
  - apply parser_reaches_here.
Defined.

(** X16: a row that the tokenizer has returned is released in full and
    nothing else is: [csv_parser_destroy_row] frees each field of the
    row once, in order, then the array of fields and the row. *)
Theorem destroy_row_frees_every_field :
  forall (line : list ascii) (d : ascii) (row : csv_row_td),
    s_parse_line_to_row line d = Ok row ->
    csv_parser_destroy_row (Some row) =
    map Free_field (fields row) ++ [Free_fields; Free_row].
Proof.
  intros line d row H.
  destruct (tokenizer_outcome line d) as [[row' (E & _ & Hn)] | [E _]];
    rewrite E in H; [| discriminate].
  inversion H; subst row'. unfold csv_parser_destroy_row.
  rewrite Hn, firstn_all. reflexivity.
Qed.

Lemma destroy_row_frees_every_field_witness :
  csv_parser_destroy_row
    (Some {| fields := [bytes "a"; bytes "b"]; num_fields := 2 |}) =
  [Free_field (bytes "a"); Free_field (bytes "b"); Free_fields; Free_row].
Proof.
  apply (@destroy_row_frees_every_field (bytes "a,b") COMMA
           {| fields := [bytes "a"; bytes "b"]; num_fields := 2 |}).
  vm_compute. reflexivity.
Defined.
